(** * PanZoomRotate: the affine view-transform engine

    A shallow embedding of [src/affine/affine_transform.py],
    [src/affine/affine_image_transform.py], [src/ImageControl.py] and the
    callbacks of [src/ImageCanvas.py] that drive the engine.

    Numbers.  NumPy's [float64] entries are read in exact arithmetic, as
    real numbers; Python's [int] (viewport sizes, array shapes) is [Z].
    Rounding, overflow, NaN and Inf are therefore outside the model of
    the engine, and every equation about it is an equation of exact
    arithmetic.  The one function whose specification speaks of float
    values, [affine_transform], is given a second time on binary64 floats
    in [Float64].

    Shapes.  [ImageControl] only ever builds arrays of shape (2, 1), (2, 2),
    (2, 3) and (3, 3); each shape is a record here, so the shape tests of the
    Python functions are settled by typing (see the comment at each
    function).

    Exceptions.  A Python call either returns or raises; [result] keeps
    the two apart, and a method of the [ImageControl] object is a function
    from the object before the call to the outcome and the object after
    it, so that whatever was assigned before an exception stays assigned. *)

From Stdlib Require Import Reals Lra Lia List ZArith Bool.
From Stdlib Require Floats.
Import ListNotations.
Local Open Scope R_scope.

(* ================================================================== *)
(** ** Exceptions *)

Inductive exn : Set :=
| LinAlgError        (* numpy.linalg.LinAlgError, "Singular matrix" *)
| ZeroDivisionError  (* int / int with a zero divisor *)
| IndexError.        (* tuple index out of range *)

Inductive result (A : Type) : Type :=
| Ok (a : A)
| Raise (e : exn).
Arguments Ok {A} a.
Arguments Raise {A} e.

Definition rbind {A B : Type} (r : result A) (k : A -> result B) : result B :=
  match r with
  | Ok a => k a
  | Raise e => Raise e
  end.

(* ================================================================== *)
(** ** NumPy arrays of the shapes the engine uses *)

Module Np.

(** shape (2, 1): one point, a column. *)
Record vec2 : Type := V2 { vx : R; vy : R }.

(** shape (2, 2), row major. *)
Record mat2 : Type := M2 { a11 : R; a12 : R; a21 : R; a22 : R }.

(** shape (2, 3): three points, one per column. *)
Record coords : Type := C3 { pt0 : vec2; pt1 : vec2; pt2 : vec2 }.

(** shape (3, 3), row major. *)
Record mat3 : Type :=
  M3 { m00 : R; m01 : R; m02 : R;
       m10 : R; m11 : R; m12 : R;
       m20 : R; m21 : R; m22 : R }.

(** shape (2, 3): the two upper rows of a (3, 3) array, [M[:-1]]. *)
Record mat23 : Type :=
  M23 { r00 : R; r01 : R; r02 : R;
        r10 : R; r11 : R; r12 : R }.

Definition vadd (u v : vec2) : vec2 := V2 (vx u + vx v) (vy u + vy v).
Definition vsub (u v : vec2) : vec2 := V2 (vx u - vx v) (vy u - vy v).
Definition vneg (u : vec2) : vec2 := V2 (- vx u) (- vy u).

(** [m.dot(v)] for (2, 2) by (2, 1). *)
Definition dot_vec (m : mat2) (v : vec2) : vec2 :=
  V2 (a11 m * vx v + a12 m * vy v) (a21 m * vx v + a22 m * vy v).

(** [m.dot(n)] for (2, 2) by (2, 2). *)
Definition dot_mat (m n : mat2) : mat2 :=
  M2 (a11 m * a11 n + a12 m * a21 n) (a11 m * a12 n + a12 m * a22 n)
     (a21 m * a11 n + a22 m * a21 n) (a21 m * a12 n + a22 m * a22 n).

(** [m.dot(c)] for (2, 2) by (2, 3): column by column. *)
Definition dot_coords (m : mat2) (c : coords) : coords :=
  C3 (dot_vec m (pt0 c)) (dot_vec m (pt1 c)) (dot_vec m (pt2 c)).

(** [c + v] and [c - v] for (2, 3) and (2, 1): NumPy broadcasts the
    column over the three columns. *)
Definition coords_add (c : coords) (v : vec2) : coords :=
  C3 (vadd (pt0 c) v) (vadd (pt1 c) v) (vadd (pt2 c) v).
Definition coords_sub (c : coords) (v : vec2) : coords :=
  C3 (vsub (pt0 c) v) (vsub (pt1 c) v) (vsub (pt2 c) v).

Definition det2 (m : mat2) : R := a11 m * a22 m - a12 m * a21 m.

(** [np.linalg.inv] on a (2, 2) array, in exact arithmetic: LinAlgError
    exactly when the matrix is singular, the inverse otherwise. *)
Definition linalg_inv (m : mat2) : result mat2 :=
  if Req_dec_T (det2 m) 0 then Raise LinAlgError
  else Ok (M2 (a22 m / det2 m) (- a12 m / det2 m)
              (- a21 m / det2 m) (a11 m / det2 m)).

Definition zeros_3_3 : mat3 := M3 0 0 0 0 0 0 0 0 0.
Definition zeros_2_3 : coords := C3 (V2 0 0) (V2 0 0) (V2 0 0).

End Np.
Import Np.

(* ================================================================== *)
(** ** src/affine/affine_transform.py *)

Module Affine.

(** [(coords - coords[:, 0].reshape((2, 1)))[:, 1:]]: the columns 1 and 2
    relative to column 0. *)
Definition delta_coords (c : coords) : mat2 :=
  M2 (vx (pt1 c) - vx (pt0 c)) (vx (pt2 c) - vx (pt0 c))
     (vy (pt1 c) - vy (pt0 c)) (vy (pt2 c) - vy (pt0 c)).

(** Assembling [[inner, translation], [0 0, 1]] with np.concatenate. *)
Definition assemble (inner : mat2) (translation : vec2) : mat3 :=
  M3 (a11 inner) (a12 inner) (vx translation)
     (a21 inner) (a22 inner) (vy translation)
     0 0 1.

(** [affine_transform(coords_in_frame1, coords_in_frame2)] at two (2, 3)
    arrays.  The shapes agree and differ by one between rows and columns,
    so neither ValueError is raised, and shape[0] < shape[1], so the
    arrays are not transposed. *)
Definition affine_transform (coords_in_frame1 coords_in_frame2 : coords)
  : result mat3 :=
  let offset1 := pt0 coords_in_frame1 in
  let offset2 := pt0 coords_in_frame2 in
  let delta_coords1 := delta_coords coords_in_frame1 in
  let delta_coords2 := delta_coords coords_in_frame2 in
  rbind (linalg_inv delta_coords1) (fun inv1 =>
  let inner_matrix := dot_mat delta_coords2 inv1 in
  let translation := vsub offset2 (dot_vec inner_matrix offset1) in
  Ok (assemble inner_matrix translation)).

(** [affine_transform_matrix[:-1, :-1]] and
    [affine_transform_matrix[:rows-1, -1]]. *)
Definition inner_of (m : mat3) : mat2 := M2 (m00 m) (m01 m) (m10 m) (m11 m).
Definition translation_of (m : mat3) : vec2 := V2 (m02 m) (m12 m).

(** [affine_inverse(affine_transform_matrix)] at a (3, 3) array. *)
Definition affine_inverse (affine_transform_matrix : mat3) : result mat3 :=
  let translation := translation_of affine_transform_matrix in
  let inner_matrix := inner_of affine_transform_matrix in
  rbind (linalg_inv inner_matrix) (fun inner_inverse =>
  let new_translation := vneg (dot_vec inner_inverse translation) in
  Ok (assemble inner_inverse new_translation)).

(** [affine_multiplication(affine_transform_matrix, vector)] at a (3, 3)
    matrix and a (2, 1) vector: the vector is two-dimensional with
    shape[1] = 1 <> 2 and shape[0] = 2, so the third branch appends a
    row of ones; the product's last row is dropped. *)
Definition affine_multiplication (affine_transform_matrix : mat3)
    (vector : vec2) : vec2 :=
  let m := affine_transform_matrix in
  V2 (m00 m * vx vector + m01 m * vy vector + m02 m * 1)
     (m10 m * vx vector + m11 m * vy vector + m12 m * 1).

(** The same call at a (2, 3) array: shape[1] = 3 <> 2 and shape[0] = 2,
    the third branch again, applied to the three columns at once. *)
Definition affine_multiplication_coords (affine_transform_matrix : mat3)
    (vector : coords) : coords :=
  C3 (affine_multiplication affine_transform_matrix (pt0 vector))
     (affine_multiplication affine_transform_matrix (pt1 vector))
     (affine_multiplication affine_transform_matrix (pt2 vector)).

(** Three points are collinear (or coincident) when the two edge vectors
    from the first point have a zero cross product. *)
Definition collinear (c : coords) : Prop :=
  (vx (pt1 c) - vx (pt0 c)) * (vy (pt2 c) - vy (pt0 c))
  - (vx (pt2 c) - vx (pt0 c)) * (vy (pt1 c) - vy (pt0 c)) = 0.

End Affine.
Import Affine.

(* ================================================================== *)
(** ** src/affine/affine_image_transform.py *)

Module Raster.

(** An image array: its shape (rows, columns, channels for an OpenCV
    image) and its entries. *)
Record ndarray : Type := Nd { shape : list Z; pixels : list Z }.

(** [a.size]: the product of the dimensions. *)
Definition nd_size (a : ndarray) : Z := fold_right Z.mul 1%Z (shape a).

(** [np.ndarray((0,))]. *)
Definition empty_ndarray : ndarray := Nd [0%Z] [].

Definition color : Type := (Z * Z * Z)%type.

(** What [get_image] hands to its caller: an array the engine holds or
    builds itself, or the value of a call to [cv2.warpAffine].  OpenCV's
    resampler is outside the repository, so the call is kept as a term
    with its four arguments. *)
Inductive image : Type :=
| Array (a : ndarray)
| WarpAffine (src : ndarray) (M : mat23) (dsize : Z * Z) (borderValue : color).

Definition zero_size (i : image) : Prop :=
  exists a, i = Array a /\ nd_size a = 0%Z.

(** [affine_image_transform(image, affine_transform_matrix, size,
    background_color)] at a (3, 3) matrix: the first branch keeps the two
    upper rows; no TypeError. *)
Definition affine_image_transform (img : ndarray)
    (affine_transform_matrix : mat3) (size : Z * Z)
    (background_color : color) : image :=
  let m := affine_transform_matrix in
  WarpAffine img (M23 (m00 m) (m01 m) (m02 m) (m10 m) (m11 m) (m12 m))
             size background_color.

End Raster.
Import Raster.

(* ================================================================== *)
(** ** src/ImageControl.py *)

Module ImageControl.

(** The attributes of an [ImageControl] object. *)
Record t : Type :=
  Self { core_image : ndarray;
         affine_transform_matrix : mat3;
         corners : coords;
         size : Z * Z;
         background_color : color }.

Definition set_core_image (a : ndarray) (self : t) : t :=
  Self a (affine_transform_matrix self) (corners self) (size self)
       (background_color self).
Definition set_affine_transform_matrix (m : mat3) (self : t) : t :=
  Self (core_image self) m (corners self) (size self)
       (background_color self).
Definition set_corners (c : coords) (self : t) : t :=
  Self (core_image self) (affine_transform_matrix self) c (size self)
       (background_color self).
Definition set_size (s : Z * Z) (self : t) : t :=
  Self (core_image self) (affine_transform_matrix self) (corners self) s
       (background_color self).

(** *** Methods: the object goes in, the outcome and the object come out *)

Definition method (A : Type) : Type := t -> result A * t.

Definition ret {A : Type} (a : A) : method A := fun self => (Ok a, self).

Definition bind {A B : Type} (m : method A) (k : A -> method B) : method B :=
  fun self =>
    match m self with
    | (Ok a, self') => k a self'
    | (Raise e, self') => (Raise e, self')
    end.

(** A pure computation that may raise, run inside a method. *)
Definition lift {A : Type} (r : result A) : method A := fun self => (r, self).

(** [self.attr = value]. *)
Definition assign (f : t -> t) : method unit := fun self => (Ok tt, f self).

(** [try: body  except np.linalg.LinAlgError: handler]. *)
Definition try_except_LinAlgError {A : Type} (body handler : method A)
  : method A :=
  fun self =>
    match body self with
    | (Raise LinAlgError, self') => handler self'
    | other => other
    end.

Declare Scope method_scope.
Delimit Scope method_scope with method.
Notation "x <- m ;; k" := (bind m (fun x => k))
  (at level 61, m at next level, right associativity) : method_scope.
Notation "m ;; k" := (bind m (fun _ => k))
  (at level 61, right associativity) : method_scope.
Local Open Scope method_scope.

(** *** Python integers and tuples *)

(** [a / b] on two ints: true division, ZeroDivisionError at [b = 0]. *)
Definition py_div (a b : Z) : result R :=
  if (b =? 0)%Z then Raise ZeroDivisionError else Ok (IZR a / IZR b).

(** [tup[i]]. *)
Definition index (tup : list Z) (i : nat) : result Z :=
  match nth_error tup i with
  | Some x => Ok x
  | None => Raise IndexError
  end.

(** [0 in size] for a pair, [0 in tup] for a tuple. *)
Definition zero_in_pair (s : Z * Z) : bool :=
  ((fst s =? 0) || (snd s =? 0))%Z.
Definition zero_in (tup : list Z) : bool := existsb (Z.eqb 0) tup.

(** [s == (0, 0)]. *)
Definition is_0_0 (s : Z * Z) : bool := ((fst s =? 0) && (snd s =? 0))%Z.

(** A pair of ints entering a float64 array. *)
Definition float_pair (s : Z * Z) : R * R := (IZR (fst s), IZR (snd s)).

(** *** The methods *)

(** [get_coords_from_size(size)]: [[0, size[0], 0], [0, 0, size[1]]]. *)
Definition get_coords_from_size (size : R * R) : coords :=
  C3 (V2 0 0) (V2 (fst size) 0) (V2 0 (snd size)).

Definition update_affine_transform_matrix : method unit :=
  fun self =>
    (m <- lift (affine_transform
                  (get_coords_from_size (float_pair (size self)))
                  (corners self)) ;;
     assign (set_affine_transform_matrix m)) self.

Definition get_image : method image :=
  fun self =>
    if (nd_size (core_image self) =? 0)%Z then ret (Array (core_image self)) self
    else
      (update_affine_transform_matrix ;;
       try_except_LinAlgError
         (fun self =>
            (inv <- lift (affine_inverse (affine_transform_matrix self)) ;;
             ret (affine_image_transform (core_image self) inv (size self)
                    (background_color self))) self)
         (ret (Array empty_ndarray))) self.

(** [zoom_factor]: a number, or a tuple of two numbers. *)
Inductive factor : Type :=
| Scalar (f : R)
| PerAxis (fx fy : R).

Definition factor_pair (zoom_factor : factor) : R * R :=
  match zoom_factor with
  | Scalar f => (f, f)
  | PerAxis fx fy => (fx, fy)
  end.

(** [np.array(self.size, dtype=np.float64).reshape((2, 1)) / 2] when the
    center is None, the given point as a column otherwise. *)
Definition center_or_middle (center : option vec2) (size : Z * Z) : vec2 :=
  match center with
  | None => V2 (IZR (fst size) / 2) (IZR (snd size) / 2)
  | Some c => c
  end.

Definition zoom (zoom_factor : factor) (zoom_center : option vec2)
  : method unit :=
  fun self =>
    if (nd_size (core_image self) =? 0)%Z then ret tt self
    else
      let zoom_factor := factor_pair zoom_factor in
      let zoom_center := center_or_middle zoom_center (size self) in
      let zoom_matrix := M2 (fst zoom_factor) 0 0 (snd zoom_factor) in
      let delta := vsub (dot_vec zoom_matrix zoom_center) zoom_center in
      (assign (set_corners
                 (affine_multiplication_coords (affine_transform_matrix self)
                    (coords_sub
                       (dot_coords zoom_matrix
                          (get_coords_from_size (float_pair (size self))))
                       delta))) ;;
       update_affine_transform_matrix) self.

Definition resize (new_size : Z * Z) : method unit :=
  ((fun self =>
      if negb (nd_size (core_image self) =? 0)%Z && negb (is_0_0 (size self))
      then (fx <- lift (py_div (fst new_size) (fst (size self))) ;;
            fy <- lift (py_div (snd new_size) (snd (size self))) ;;
            zoom (PerAxis fx fy) None) self
      else ret tt self) ;;
   assign (set_size new_size) ;;
   (fun self =>
      if negb (nd_size (core_image self) =? 0)%Z
      then update_affine_transform_matrix self
      else ret tt self)).

Definition reset_corners : method unit :=
  fun self =>
    if zero_in_pair (size self)
       || (nd_size (core_image self) =? 0)%Z
       || zero_in (firstn 2 (shape (core_image self)))
    then ret tt self
    else
      let size := size self in
      let img_shape := shape (core_image self) in
      (shape0 <- lift (index img_shape 0) ;;
       shape1 <- lift (index img_shape 1) ;;
       image_ratio <- lift (py_div shape0 shape1) ;;
       size_ratio <- lift (py_div (snd size) (fst size)) ;;
       fit <-
         (if Req_dec_T image_ratio size_ratio then
            ret (IZR shape1, IZR shape0, V2 0 0)
          else if Rgt_dec image_ratio size_ratio then
            let height := IZR shape0 in
            r <- lift (py_div (fst size) (snd size)) ;;
            let width := r * height in
            ret (width, height, V2 ((width - IZR shape1) / 2) 0)
          else
            let width := IZR shape1 in
            r <- lift (py_div (snd size) (fst size)) ;;
            let height := r * width in
            ret (width, height, V2 0 ((height - IZR shape0) / 2))) ;;
       let '(width, height, offset) := fit in
       assign (set_corners
                 (coords_sub (get_coords_from_size (width, height)) offset)) ;;
       update_affine_transform_matrix) self.

Definition load_image (img : ndarray) : method unit :=
  assign (set_core_image img) ;; reset_corners.

(** [ImageControl(image, size, background_color)]; [image] is None or an
    array. *)
Definition init (img : option ndarray) (size : Z * Z)
    (background_color : color) : result unit * t :=
  let self := Self empty_ndarray zeros_3_3 zeros_2_3 size background_color in
  match img with
  | None => (Ok tt, self)
  | Some a => load_image a self
  end.

Definition pan (delta : vec2) : method unit :=
  fun self =>
    if (nd_size (core_image self) =? 0)%Z then ret tt self
    else
      (assign (set_corners
                 (affine_multiplication_coords (affine_transform_matrix self)
                    (coords_add
                       (get_coords_from_size (float_pair (size self)))
                       delta))) ;;
       update_affine_transform_matrix) self.

Definition rotate (rad_angle : R) (rot_center : option vec2) : method unit :=
  fun self =>
    if (nd_size (core_image self) =? 0)%Z then ret tt self
    else
      let rot_center := center_or_middle rot_center (size self) in
      let transformed_center :=
        affine_multiplication (affine_transform_matrix self) rot_center in
      let cos_angle := cos rad_angle in
      let sin_angle := sin rad_angle in
      let rotation_matrix :=
        M2 cos_angle (- sin_angle) sin_angle cos_angle in
      (assign (set_corners
                 (coords_add
                    (dot_coords rotation_matrix
                       (coords_sub (corners self) transformed_center))
                    transformed_center)) ;;
       update_affine_transform_matrix) self.

(** *** Sequences of calls *)

Inductive call : Type :=
| Pan (delta : vec2)
| Zoom (zoom_factor : factor) (zoom_center : option vec2)
| Rotate (rad_angle : R) (rot_center : option vec2)
| ResetCorners
| Resize (new_size : Z * Z).

Definition perform (c : call) : method unit :=
  match c with
  | Pan delta => pan delta
  | Zoom f c => zoom f c
  | Rotate a c => rotate a c
  | ResetCorners => reset_corners
  | Resize n => resize n
  end.

(** The calls one after the other; an exception ends the sequence. *)
Fixpoint run (cs : list call) : method unit :=
  match cs with
  | [] => ret tt
  | c :: cs' => perform c ;; run cs'
  end.

(** *** State predicates *)

Definition has_image (self : t) : Prop := nd_size (core_image self) <> 0%Z.

Definition no_image (self : t) : Prop := nd_size (core_image self) = 0%Z.

Definition nonzero_size (s : Z * Z) : Prop := fst s <> 0%Z /\ snd s <> 0%Z.

(** The stored matrix is the one derived from (corners, size). *)
Definition matrix_current (self : t) : Prop :=
  affine_transform (get_coords_from_size (float_pair (size self)))
                   (corners self)
  = Ok (affine_transform_matrix self).



(** Calls that leave the viewport size alone. *)
Definition keeps_viewport (c : call) : Prop :=
  match c with
  | Resize _ => False
  | _ => True
  end.

(** A view: an image is loaded, no viewport dimension is zero, the
    corners span the plane, and the stored matrix is current. *)
Record view (self : t) : Prop :=
  View { view_image : has_image self;
         view_size : nonzero_size (size self);
         view_corners : ~ collinear (corners self);
         view_matrix : matrix_current self }.

(** The raster, the viewport size and the background colour of [self']
    are those of [self]. *)
Definition frame_kept (self self' : t) : Prop :=
  core_image self' = core_image self /\
  size self' = size self /\
  background_color self' = background_color self.

(** *** Some states *)

(** A 2 x 2 image with three channels. *)
Definition small_image : ndarray :=
  Nd [2; 2; 3]%Z [10; 20; 30; 40; 50; 60; 70; 80; 90; 100; 110; 120]%Z.

(** A 4 x 2 viewport looking at the image turned by a quarter and
    magnified: corners (1, 1), (1, 3), (0, 1). *)
Definition turned_view : t :=
  Self small_image
       (M3 0 (-1 / 2) 1
           (1 / 2) 0 1
           0 0 1)
       (C3 (V2 1 1) (V2 1 3) (V2 0 1))
       (4, 2)%Z (0, 0, 0)%Z.

(** [ImageControl()]: no image, viewport (0, 0). *)
Definition blank : t :=
  Self empty_ndarray zeros_3_3 zeros_2_3 (0, 0)%Z (0, 0, 0)%Z.

(** [ImageControl(image=small_image)]: the image is loaded before the
    viewport has a size, as when a file is opened before the first
    Configure event reaches the canvas. *)
Definition loaded_unsized : t :=
  Self small_image zeros_3_3 zeros_2_3 (0, 0)%Z (0, 0, 0)%Z.

(** A square 400 x 400 image in an 800 x 600 viewport, before the view is
    reset. *)
Definition square_image : ndarray :=
  Nd [400; 400; 3]%Z (repeat 0%Z (Z.to_nat 480000)).

Definition square_in_800_600 : t :=
  Self square_image zeros_3_3 zeros_2_3 (800, 600)%Z (0, 0, 0)%Z.

End ImageControl.
Import ImageControl.

(* ================================================================== *)
(** ** affine_multiplication at arrays of any shape

    The typed [affine_multiplication] above fixes the shapes the engine
    uses.  Here the function is taken with its shape dispatch, on NumPy
    arrays of one or two dimensions given by their shape and their
    entries in C order (row after row). *)

Module NdFloat.

Inductive farray : Type :=
| Arr1 (entries : list R)                       (* shape (len(entries),) *)
| Arr2 (rows cols : nat) (entries : list R).    (* shape (rows, cols) *)

(** The exceptions of the engine, and TypeError. *)
Inductive exn_nd : Set :=
| Engine (e : exn)
| TypeError.

Inductive outcome (A : Type) : Type :=
| Returns (a : A)
| Raises (e : exn_nd).
Arguments Returns {A} a.
Arguments Raises {A} e.

(** Entry (i, j) of a two-dimensional array with [cols] columns. *)
Definition at2 (cols : nat) (entries : list R) (i j : nat) : R :=
  nth (i * cols + j) entries 0.

(** The entries of [a.T] for [a] of shape (rows, cols). *)
Definition transpose_entries (rows cols : nat) (entries : list R) : list R :=
  flat_map (fun j => map (fun i => at2 cols entries i j) (seq 0 rows))
           (seq 0 cols).

(** The entries of [a.dot(b)] for [a] of shape (ra, ca) and [b] of shape
    (ca, cb). *)
Definition dot_entries (ra ca cb : nat) (a b : list R) : list R :=
  flat_map
    (fun i =>
       map (fun j =>
              fold_right Rplus 0
                (map (fun l => at2 ca a i l * at2 cb b l j) (seq 0 ca)))
           (seq 0 cb))
    (seq 0 ra).

(** [x.reshape(vector.shape)]: the entries stay in C order and take the
    shape of [vector]. *)
Definition reshape_like (vector : farray) (entries : list R) : farray :=
  match vector with
  | Arr1 _ => Arr1 entries
  | Arr2 rows cols _ => Arr2 rows cols entries
  end.

(** [affine_multiplication(affine_transform_matrix, vector)].  A Python
    test [k == shape[0] - 1] on ints is written [S k =? shape[0]].
    - the matrix must be two-dimensional and square, else TypeError;
    - a one-dimensional vector of the right size becomes a column with a
      one appended; of another size it reaches [vector.shape[1]] in the
      second test, which raises IndexError on a 1-tuple;
    - a two-dimensional vector whose second dimension fits is
      transposed and a row of ones appended; else, if its first
      dimension fits, the row of ones is appended as it is; else
      TypeError;
    - the product's last row is dropped and the rest reshaped to the
      vector's shape. *)
Definition affine_multiplication_nd (affine_transform_matrix vector : farray)
  : outcome farray :=
  match affine_transform_matrix with
  | Arr1 _ => Raises TypeError
  | Arr2 mrows mcols m =>
      if negb (mrows =? mcols)%nat then Raises TypeError
      else
        let v : outcome (nat * list R) :=
          match vector with
          | Arr1 xs =>
              if (S (length xs) =? mrows)%nat
              then Returns (1%nat, xs ++ [1])
              else Raises (Engine IndexError)
          | Arr2 vrows vcols xs =>
              if (S vcols =? mrows)%nat
              then Returns (vrows, transpose_entries vrows vcols xs ++ repeat 1 vrows)
              else if (S vrows =? mrows)%nat
                   then Returns (vcols, xs ++ repeat 1 vcols)
                   else Raises TypeError
          end in
        match v with
        | Raises e => Raises e
        | Returns (k, ventries) =>
            Returns
              (reshape_like vector
                 (firstn ((mrows - 1) * k)
                    (dot_entries mrows mcols k m ventries)))
        end
  end.

(** A (3, 3) matrix of the engine as an array. *)
Definition of_mat3 (m : mat3) : farray :=
  Arr2 3 3 [m00 m; m01 m; m02 m; m10 m; m11 m; m12 m; m20 m; m21 m; m22 m].

End NdFloat.
Import NdFloat.

(* ================================================================== *)
(** ** affine_transform on binary64 values

    Everything above reads float64 in exact arithmetic.  For the
    statements that are about the float values themselves,
    [affine_transform] is taken here once more on Rocq's primitive
    binary64 floats, operation for operation. *)

Module Float64.

Import PrimFloat.
Local Open Scope float_scope.

Record vec2f : Type := V2f { fvx : float; fvy : float }.
Record mat2f : Type := M2f { f11 : float; f12 : float; f21 : float; f22 : float }.
Record coordsf : Type := C3f { fpt0 : vec2f; fpt1 : vec2f; fpt2 : vec2f }.
Record mat3f : Type :=
  M3f { g00 : float; g01 : float; g02 : float;
        g10 : float; g11 : float; g12 : float;
        g20 : float; g21 : float; g22 : float }.

Definition vsub_f (u v : vec2f) : vec2f := V2f (fvx u - fvx v) (fvy u - fvy v).

Definition dot_vec_f (m : mat2f) (v : vec2f) : vec2f :=
  V2f (f11 m * fvx v + f12 m * fvy v) (f21 m * fvx v + f22 m * fvy v).

Definition dot_mat_f (m n : mat2f) : mat2f :=
  M2f (f11 m * f11 n + f12 m * f21 n) (f11 m * f12 n + f12 m * f22 n)
      (f21 m * f11 n + f22 m * f21 n) (f21 m * f12 n + f22 m * f22 n).

Definition delta_coords_f (c : coordsf) : mat2f :=
  M2f (fvx (fpt1 c) - fvx (fpt0 c)) (fvx (fpt2 c) - fvx (fpt0 c))
      (fvy (fpt1 c) - fvy (fpt0 c)) (fvy (fpt2 c) - fvy (fpt0 c)).

Definition assemble_f (inner : mat2f) (translation : vec2f) : mat3f :=
  M3f (f11 inner) (f12 inner) (fvx translation)
      (f21 inner) (f22 inner) (fvy translation)
      0 0 1.

(** LAPACK's safe minimum for binary64, [dlamch('S')]. *)
Definition sfmin : float := 0x1p-1022.

(** One column of the two triangular solves of [dgetrs] for the factors
    [[1, 0], [l, 1]] and [[u11, u12], [0, u22]]; as the reference BLAS
    does, a step whose right-hand side entry is zero is skipped. *)
Definition solve_column (l u11 u12 u22 b1 b2 : float) : float * float :=
  let y2 := if b1 =? 0 then b2 else b2 - b1 * l in
  let x2 := if y2 =? 0 then y2 else y2 / u22 in
  let y1 := if y2 =? 0 then b1 else b1 - x2 * u12 in
  let x1 := if y1 =? 0 then y1 else y1 / u11 in
  (x1, x2).

(** [np.linalg.inv] on a (2, 2) float64 array: LAPACK's [dgesv] on the
    identity, in the order of operations of the reference
    implementation.  The LU factorisation picks the pivot of larger
    magnitude in the first column (the first row on a tie), scales by the
    reciprocal of the pivot (by a division below the safe minimum), and
    NumPy raises LinAlgError exactly when a pivot is zero. *)
Definition linalg_inv_f (m : mat2f) : result mat2f :=
  let swap := abs (f11 m) <? abs (f21 m) in
  let p11 := if swap then f21 m else f11 m in
  let p12 := if swap then f22 m else f12 m in
  let p21 := if swap then f11 m else f21 m in
  let p22 := if swap then f12 m else f22 m in
  if p11 =? 0 then Raise LinAlgError
  else
    let l := if sfmin <=? abs p11 then p21 * (1 / p11) else p21 / p11 in
    let u22 := p22 - l * p12 in
    if u22 =? 0 then Raise LinAlgError
    else
      let c1 := if swap then solve_column l p11 p12 u22 0 1
                else solve_column l p11 p12 u22 1 0 in
      let c2 := if swap then solve_column l p11 p12 u22 1 0
                else solve_column l p11 p12 u22 0 1 in
      Ok (M2f (fst c1) (fst c2) (snd c1) (snd c2)).

(** [affine_transform] at two (2, 3) float64 arrays. *)
Definition affine_transform_f (coords_in_frame1 coords_in_frame2 : coordsf)
  : result mat3f :=
  let offset1 := fpt0 coords_in_frame1 in
  let offset2 := fpt0 coords_in_frame2 in
  let delta_coords1 := delta_coords_f coords_in_frame1 in
  let delta_coords2 := delta_coords_f coords_in_frame2 in
  rbind (linalg_inv_f delta_coords1) (fun inv1 =>
  let inner_matrix := dot_mat_f delta_coords2 inv1 in
  let translation := vsub_f offset2 (dot_vec_f inner_matrix offset1) in
  Ok (assemble_f inner_matrix translation)).

(** [np.isfinite]. *)
Definition finite (x : float) : bool := abs x <? infinity.

Definition all_finite (m : mat3f) : bool :=
  finite (g00 m) && finite (g01 m) && finite (g02 m)
  && finite (g10 m) && finite (g11 m) && finite (g12 m)
  && finite (g20 m) && finite (g21 m) && finite (g22 m).

(** The points (0,0), (1,0), (0,1). *)
Definition unit_basis_f : coordsf := C3f (V2f 0 0) (V2f 1 0) (V2f 0 1).

(** Three finite points far apart: (-2^1023, 0), (2^1023, 0),
    (-2^1023, 1). *)
Definition far_basis_f : coordsf :=
  C3f (V2f (- 0x1p1023) 0) (V2f 0x1p1023 0) (V2f (- 0x1p1023) 1).

(** Three points of which the last two coincide: (0,0), (1,49), (1,49). *)
Definition coincident_basis_f : coordsf :=
  C3f (V2f 0 0) (V2f 1 49) (V2f 1 49).

(** Three points that are not collinear: (0,0), (3,1), (1, y) with y the
    float nearest to 1/3, which is not 1/3. *)
Definition slanted_basis_f : coordsf :=
  C3f (V2f 0 0) (V2f 3 1) (V2f 1 (1 / 3)).

End Float64.

(* ================================================================== *)
(** ** Undistorted views *)

(** The linear part of the matrix is a rotation times one scale factor:
    a viewport pixel covers a square of the image, of the same side along
    both axes. *)
Definition similarity (m : mat3) : Prop :=
  m00 m = m11 m /\ m01 m = - m10 m.


(* ================================================================== *)
(** ** src/ImageCanvas.py: the callbacks that drive the engine

    The canvas is a Tk widget.  Of it the model keeps the attributes the
    callbacks compute with and the [ImageControl] object; the widget's
    geometry ([winfo_width()], [winfo_height()]) is read from two fields;
    drawing ([create_image], [delete], [PhotoImage]) and Tk's own
    [update] are outside the model, and so are the two attributes that
    hold the drawing, [_tk_image] and [image_id], which [update] assigns
    anew on every call; [update] is the [get_image] call whose result
    goes to Tk. *)

Module ImageCanvas.

Record canvas : Type :=
  Canvas { image_control : ImageControl.t;
           scroll_factor : R;
           centered_zoom : bool;
           centered_rotation : bool;
           rotate_nonresponsive_radius_fraction : R;
           left_button_pos : vec2;
           right_button_pos : vec2;
           right_button_pos_center : vec2;
           winfo_width : Z;
           winfo_height : Z }.

(** The fields of a [tkinter.Event] the callbacks read. *)
Record event : Type :=
  Event { ev_x : Z; ev_y : Z; ev_num : Z; ev_delta : Z;
          ev_width : Z; ev_height : Z }.

Definition set_image_control (ic : ImageControl.t) (cv : canvas) : canvas :=
  Canvas ic (scroll_factor cv) (centered_zoom cv) (centered_rotation cv)
         (rotate_nonresponsive_radius_fraction cv) (left_button_pos cv)
         (right_button_pos cv) (right_button_pos_center cv)
         (winfo_width cv) (winfo_height cv).
Definition set_left_button_pos (p : vec2) (cv : canvas) : canvas :=
  Canvas (image_control cv) (scroll_factor cv) (centered_zoom cv)
         (centered_rotation cv) (rotate_nonresponsive_radius_fraction cv) p
         (right_button_pos cv) (right_button_pos_center cv)
         (winfo_width cv) (winfo_height cv).
Definition set_right_button_pos (p : vec2) (cv : canvas) : canvas :=
  Canvas (image_control cv) (scroll_factor cv) (centered_zoom cv)
         (centered_rotation cv) (rotate_nonresponsive_radius_fraction cv)
         (left_button_pos cv) p (right_button_pos_center cv)
         (winfo_width cv) (winfo_height cv).
Definition set_right_button_pos_center (p : vec2) (cv : canvas) : canvas :=
  Canvas (image_control cv) (scroll_factor cv) (centered_zoom cv)
         (centered_rotation cv) (rotate_nonresponsive_radius_fraction cv)
         (left_button_pos cv) (right_button_pos cv) p
         (winfo_width cv) (winfo_height cv).

(** A callback: the canvas goes in, the outcome and the canvas come out. *)
Definition callback (A : Type) : Type := canvas -> result A * canvas.

Definition cret {A : Type} (a : A) : callback A := fun cv => (Ok a, cv).

Definition cbind {A B : Type} (m : callback A) (k : A -> callback B)
  : callback B :=
  fun cv =>
    match m cv with
    | (Ok a, cv') => k a cv'
    | (Raise e, cv') => (Raise e, cv')
    end.

(** [self.attr = value]. *)
Definition cassign (f : canvas -> canvas) : callback unit :=
  fun cv => (Ok tt, f cv).

(** [self.image_control.method(...)]. *)
Definition on_control {A : Type} (m : method A) : callback A :=
  fun cv =>
    let (r, ic) := m (image_control cv) in (r, set_image_control ic cv).

Declare Scope canvas_scope.
Delimit Scope canvas_scope with canvas.
Notation "m ;;; k" := (cbind m (fun _ => k))
  (at level 61, right associativity) : canvas_scope.
Local Open Scope canvas_scope.

(** [int(x)] on a float: the integer part, rounded towards zero. *)
Definition py_int (x : R) : Z :=
  if Rle_dec 0 x then Int_part x else (- Int_part (- x))%Z.

(** [np.array((event.x, event.y), dtype=np.float64)]. *)
Definition event_pos (e : event) : vec2 := V2 (IZR (ev_x e)) (IZR (ev_y e)).

(** [(self.winfo_width() / 2, self.winfo_height() / 2)]. *)
Definition middle (cv : canvas) : vec2 :=
  V2 (IZR (winfo_width cv) / 2) (IZR (winfo_height cv) / 2).

Definition update : callback unit :=
  on_control get_image ;;; cret tt.

Definition callback_resize (e : event) : callback unit :=
  on_control (resize (ev_width e, ev_height e)) ;;; update.

Definition callback_left_button_press (e : event) : callback unit :=
  cassign (set_left_button_pos (event_pos e)).

Definition callback_left_button_motion (e : event) : callback unit :=
  fun cv =>
    let new_pos := event_pos e in
    let delta := vsub (left_button_pos cv) new_pos in
    (on_control (pan delta) ;;;
     cassign (set_left_button_pos new_pos) ;;;
     update) cv.

Definition callback_right_button_press (e : event) : callback unit :=
  cassign (set_right_button_pos (event_pos e)) ;;;
  cassign (set_right_button_pos_center (event_pos e)).

(** [center] of the three wheel callbacks. *)
Definition zoom_center_of (cv : canvas) (e : event) : vec2 :=
  if centered_zoom cv then middle cv else event_pos e.

(** [self.image_control.zoom(np.float_power(self.scroll_factor, factor),
    zoom_center=center)] and [self.update()]. *)
Definition zoom_by_notches (factor : Z) (e : event) : callback unit :=
  fun cv =>
    (on_control (zoom (Scalar (powerRZ (scroll_factor cv) factor))
                      (Some (zoom_center_of cv e))) ;;;
     update) cv.

Definition callback_mousewheel_linux (e : event) : callback unit :=
  let factor := if (ev_num e =? 4)%Z then (-1)%Z else 1%Z in
  let factor :=
    if negb (ev_delta e =? 0)%Z
    then py_int (IZR factor * (IZR (ev_delta e) / 120))
    else factor in
  zoom_by_notches factor e.

Definition callback_mousewheel_windows (e : event) : callback unit :=
  let factor := py_int (-1 * (IZR (ev_delta e) / 120)) in
  zoom_by_notches factor e.

Definition callback_mousewheel_other (e : event) : callback unit :=
  let factor := (-1 * ev_delta e)%Z in
  zoom_by_notches factor e.

(** A canvas of 4 x 2 pixels with the defaults of [ImageCanvas] (scroll
    factor 1.10, centered zoom and rotation, dead zone 0.05) showing
    [turned_view]. *)
Definition turned_canvas : canvas :=
  Canvas turned_view (11 / 10) true true (5 / 100)
         (V2 0 0) (V2 0 0) (V2 0 0) 4 2.

(** The same canvas with [scroll_factor=2] and [centered_zoom=False]. *)
Definition doubling_canvas : canvas :=
  Canvas turned_view 2 false true (5 / 100)
         (V2 0 0) (V2 0 0) (V2 0 0) 4 2.

End ImageCanvas.
Import ImageCanvas.

(* ================================================================== *)
(** * Properties *)

Local Open Scope method_scope.

(** ** The solver *)

Section SolverFacts.

Lemma collinear_det (c : coords) : collinear c <-> det2 (delta_coords c) = 0.
Proof. unfold collinear, det2, delta_coords; simpl. tauto. Qed.

Lemma linalg_inv_singular (m : mat2) :
  det2 m = 0 -> linalg_inv m = Raise LinAlgError.
Proof.
  intros Hd. unfold linalg_inv.
  destruct (Req_dec_T (det2 m) 0) as [_ | Hn]; [reflexivity | contradiction].
Qed.

Lemma linalg_inv_regular (m : mat2) :
  det2 m <> 0 ->
  linalg_inv m = Ok (M2 (a22 m / det2 m) (- a12 m / det2 m)
                        (- a21 m / det2 m) (a11 m / det2 m)).
Proof.
  intros Hd. unfold linalg_inv.
  destruct (Req_dec_T (det2 m) 0) as [He | _]; [contradiction | reflexivity].
Qed.

Lemma affine_transform_fails (b1 b2 : coords) :
  collinear b1 -> affine_transform b1 b2 = Raise LinAlgError.
Proof.
  intros Hc. unfold affine_transform.
  rewrite linalg_inv_singular by (apply collinear_det; exact Hc).
  reflexivity.
Qed.

Lemma affine_transform_succeeds (b1 b2 : coords) :
  ~ collinear b1 ->
  exists inv1,
    linalg_inv (delta_coords b1) = Ok inv1 /\
    affine_transform b1 b2 =
      Ok (assemble (dot_mat (delta_coords b2) inv1)
            (vsub (pt0 b2) (dot_vec (dot_mat (delta_coords b2) inv1) (pt0 b1)))).
Proof.
  intros Hc. rewrite collinear_det in Hc.
  eexists. split; [apply linalg_inv_regular; exact Hc|].
  unfold affine_transform. rewrite (linalg_inv_regular _ Hc). reflexivity.
Qed.

(** The linear part of a derived matrix carries the ratio of the two
    bases' cross products. *)
Lemma affine_transform_det (b1 b2 : coords) (M : mat3) :
  affine_transform b1 b2 = Ok M ->
  det2 (inner_of M) * det2 (delta_coords b1) = det2 (delta_coords b2).
Proof.
  unfold affine_transform, linalg_inv.
  destruct (Req_dec_T (det2 (delta_coords b1)) 0) as [|Hd]; [discriminate|].
  simpl. intros [= <-].
  destruct b1 as [[x0 y0] [x1 y1] [x2 y2]], b2 as [[u0 v0] [u1 v1] [u2 v2]].
  unfold det2, delta_coords, inner_of, assemble, dot_mat in *; simpl in *.
  field. exact Hd.
Qed.

(** A derived matrix sends the three points of the first basis to the
    three points of the second. *)
Lemma affine_transform_maps (b1 b2 : coords) (M : mat3) :
  affine_transform b1 b2 = Ok M -> affine_multiplication_coords M b1 = b2.
Proof.
  unfold affine_transform, linalg_inv.
  destruct (Req_dec_T (det2 (delta_coords b1)) 0) as [|Hd]; [discriminate|].
  simpl. intros [= <-].
  destruct b1 as [[x0 y0] [x1 y1] [x2 y2]], b2 as [[u0 v0] [u1 v1] [u2 v2]].
  unfold affine_multiplication_coords, affine_multiplication, assemble,
    dot_mat, dot_vec, vsub, det2, delta_coords in *; simpl in *.
  f_equal; f_equal; field; exact Hd.
Qed.

Lemma affine_inverse_succeeds (M : mat3) :
  det2 (inner_of M) <> 0 -> exists Mi, affine_inverse M = Ok Mi.
Proof.
  intros Hn. unfold affine_inverse. rewrite (linalg_inv_regular _ Hn).
  eexists. reflexivity.
Qed.

Lemma affine_inverse_undoes (M Mi : mat3) (p : vec2) :
  affine_inverse M = Ok Mi ->
  affine_multiplication Mi (affine_multiplication M p) = p.
Proof.
  unfold affine_inverse, linalg_inv.
  destruct (Req_dec_T (det2 (inner_of M)) 0) as [|Hd]; [discriminate|].
  simpl. intros [= <-].
  destruct M as [a b c d e f g h i], p as [x y].
  unfold affine_multiplication, assemble, dot_vec, vneg, translation_of,
    inner_of, det2 in *; simpl in *.
  f_equal; field; exact Hd.
Qed.

End SolverFacts.

(** C4 -- invertibility round trip.  For two bases whose points are not
    collinear, the matrix [M] derived from them exists, its inverse exists,
    and applying [M] and then the inverse to any point gives the point back
    (an equation of exact arithmetic). *)
Theorem invertibility_round_trip (basis1 basis2 : coords) (p : vec2) :
  ~ collinear basis1 -> ~ collinear basis2 ->
  exists M Mi,
    affine_transform basis1 basis2 = Ok M /\
    affine_inverse M = Ok Mi /\
    affine_multiplication Mi (affine_multiplication M p) = p.
Proof.
  intros H1 H2.
  destruct (affine_transform_succeeds basis1 basis2 H1) as (inv1 & _ & HM).
  set (M := assemble _ _) in HM.
  assert (Hdet : det2 (inner_of M) <> 0).
  { intros Hz. pose proof (affine_transform_det _ _ _ HM) as E.
    rewrite Hz, Rmult_0_l in E. apply H2, collinear_det. symmetry; exact E. }
  destruct (affine_inverse_succeeds M Hdet) as [Mi HMi].
  exists M, Mi. split; [exact HM|]. split; [exact HMi|].
  apply affine_inverse_undoes. exact HMi.
Qed.

(** The points of the demonstration at the end of affine_transform.py
    (given there one per row): points1 = [[-2, 0], [-1, 0], [-2, 1]],
    points2 = [[1, 1], [1, 2], [0, 1]], x1 = [[-1, 1]]. *)
Lemma invertibility_round_trip_witness :
  exists M Mi,
    affine_transform (C3 (V2 (-2) 0) (V2 (-1) 0) (V2 (-2) 1))
                     (C3 (V2 1 1) (V2 1 2) (V2 0 1)) = Ok M /\
    affine_inverse M = Ok Mi /\
    affine_multiplication Mi (affine_multiplication M (V2 (-1) 1)) = V2 (-1) 1.
Proof.
  apply (invertibility_round_trip
           (C3 (V2 (-2) 0) (V2 (-1) 0) (V2 (-2) 1))
           (C3 (V2 1 1) (V2 1 2) (V2 0 1)) (V2 (-1) 1));
    unfold collinear; simpl; lra.
Defined.

(** C9 -- when the solver fails, in exact arithmetic.
    [affine_transform basis1 basis2] raises exactly when the three points
    of [basis1] are collinear or coincident, which is exactly when its
    delta matrix is singular, and the exception is then LinAlgError.  When
    it returns a matrix, the delta matrix is regular, the last row is
    0 0 1, and the matrix sends the points of [basis1] to those of
    [basis2]. *)
Theorem solve_fails_iff_collinear (basis1 basis2 : coords) :
  ((exists e, affine_transform basis1 basis2 = Raise e) <-> collinear basis1) /\
  (collinear basis1 <-> det2 (delta_coords basis1) = 0) /\
  (forall e, affine_transform basis1 basis2 = Raise e -> e = LinAlgError) /\
  (forall M, affine_transform basis1 basis2 = Ok M ->
     det2 (delta_coords basis1) <> 0 /\
     (m20 M, m21 M, m22 M) = (0, 0, 1) /\
     det2 (inner_of M) = det2 (delta_coords basis2) / det2 (delta_coords basis1) /\
     affine_multiplication_coords M basis1 = basis2).
Proof.
  assert (Hdec : collinear basis1 \/ ~ collinear basis1).
  { destruct (Req_dec_T (det2 (delta_coords basis1)) 0) as [E | E];
      [left | right]; rewrite collinear_det; exact E. }
  assert (Hok : forall M, affine_transform basis1 basis2 = Ok M ->
                          det2 (delta_coords basis1) <> 0).
  { intros M HM Hz. apply collinear_det in Hz.
    rewrite (affine_transform_fails _ _ Hz) in HM. discriminate. }
  split; [split|].
  - intros [e He]. destruct Hdec as [Hc | Hn]; [exact Hc|].
    destruct (affine_transform_succeeds basis1 basis2 Hn) as (? & _ & E).
    rewrite E in He. discriminate.
  - intros Hc. exists LinAlgError. apply affine_transform_fails, Hc.
  - split; [apply collinear_det|]. split.
    + intros e He. destruct Hdec as [Hc | Hn].
      * rewrite (affine_transform_fails _ _ Hc) in He. congruence.
      * destruct (affine_transform_succeeds basis1 basis2 Hn) as (? & _ & E).
        rewrite E in He. discriminate.
    + intros M HM. pose proof (Hok M HM) as Hd.
      split; [exact Hd|]. split; [|split].
      * unfold affine_transform in HM.
        destruct (linalg_inv (delta_coords basis1)); simpl in HM;
          [|discriminate].
        injection HM as <-. reflexivity.
      * rewrite <- (affine_transform_det _ _ _ HM). field. exact Hd.
      * apply affine_transform_maps. exact HM.
Qed.

(** C9 on the float64 values the code computes with.  From finite
    points far apart the call returns a matrix with an Inf and a NaN
    entry; with two coincident points it returns, the second pivot of the
    factorisation being a rounding residue and not zero; with the three
    points (0,0), (3,1), (1,y), y the float nearest to 1/3, which are not
    collinear, it raises LinAlgError. *)
Lemma solve_float_counterexample :
  (exists M,
     Float64.affine_transform_f Float64.unit_basis_f Float64.far_basis_f = Ok M /\
     Float64.g00 M = PrimFloat.infinity /\
     PrimFloat.is_nan (Float64.g01 M) = true /\
     Float64.all_finite M = false) /\
  (collinear (C3 (V2 0 0) (V2 1 49) (V2 1 49)) /\
   exists M,
     Float64.affine_transform_f Float64.coincident_basis_f Float64.unit_basis_f
     = Ok M) /\
  (Float64.affine_transform_f Float64.slanted_basis_f Float64.unit_basis_f
   = Raise LinAlgError /\
   FloatOps.Prim2SF (Float64.fvy (Float64.fpt2 Float64.slanted_basis_f))
   = SpecFloat.S754_finite false 6004799503160661 (-54) /\
   (2 ^ 54 = 18014398509481984)%Z /\
   ~ collinear (C3 (V2 0 0) (V2 3 1)
                   (V2 1 (6004799503160661 / 18014398509481984)))).
Proof.
  split; [|split].
  - eexists. split; [vm_compute; reflexivity|].
    repeat split; vm_compute; reflexivity.
  - split; [unfold collinear; simpl; lra|].
    eexists. vm_compute. reflexivity.
  - split; [vm_compute; reflexivity|].
    split; [vm_compute; reflexivity|].
    split; [reflexivity|].
    unfold collinear; simpl. lra.
Defined.

(** ** The view state *)

Section ViewFacts.

Variable self : t.

Lemma nonzero_size_R (s : Z * Z) :
  nonzero_size s -> IZR (fst s) <> 0 /\ IZR (snd s) <> 0.
Proof.
  intros [Hw Hh]. split; intros E; apply eq_IZR_R0 in E; contradiction.
Qed.

(** The matrix derived from a viewport without a zero dimension, entry by
    entry. *)
Lemma derived_entries (s : Z * Z) (c : coords) :
  nonzero_size s ->
  affine_transform (get_coords_from_size (float_pair s)) c =
  Ok (M3 ((vx (pt1 c) - vx (pt0 c)) / IZR (fst s))
         ((vx (pt2 c) - vx (pt0 c)) / IZR (snd s))
         (vx (pt0 c))
         ((vy (pt1 c) - vy (pt0 c)) / IZR (fst s))
         ((vy (pt2 c) - vy (pt0 c)) / IZR (snd s))
         (vy (pt0 c))
         0 0 1).
Proof.
  intros Hs. destruct (nonzero_size_R s Hs) as [Hw Hh].
  unfold affine_transform.
  rewrite linalg_inv_regular;
    unfold det2, delta_coords, get_coords_from_size, float_pair; simpl.
  2: { intros E. assert (E' : IZR (fst s) * IZR (snd s) = 0) by lra.
       apply Rmult_integral in E'. tauto. }
  unfold assemble, dot_mat, dot_vec, vsub; simpl.
  destruct c as [[x0 y0] [x1 y1] [x2 y2]]; simpl.
  f_equal; f_equal; field; tauto.
Qed.

(** A viewport with a zero dimension has a collinear basis: the matrix
    cannot be derived. *)
Lemma derived_fails (s : Z * Z) (c : coords) :
  zero_in_pair s = true ->
  affine_transform (get_coords_from_size (float_pair s)) c = Raise LinAlgError.
Proof.
  intros Hz. apply affine_transform_fails.
  unfold collinear, get_coords_from_size, float_pair, zero_in_pair in *; simpl.
  apply orb_true_iff in Hz. destruct Hz as [E | E]; apply Z.eqb_eq in E;
    rewrite E; ring.
Qed.

(** [self.corners = c] followed by [self.update_affine_transform_matrix()]. *)
Lemma corners_then_update (c : coords) :
  nonzero_size (size self) ->
  exists M,
    affine_transform (get_coords_from_size (float_pair (size self))) c = Ok M /\
    (assign (set_corners c) ;; update_affine_transform_matrix) self =
    (Ok tt, Self (core_image self) M c (size self) (background_color self)).
Proof.
  intros Hs. eexists. split; [apply derived_entries; exact Hs|].
  unfold bind, assign, update_affine_transform_matrix, lift, set_corners,
    set_affine_transform_matrix; simpl.
  rewrite (derived_entries _ c Hs). reflexivity.
Qed.

End ViewFacts.

Section DerivedMatrix.

Variable s : Z * Z.
Hypothesis size_ok : nonzero_size s.

(** Corners taken through a matrix [M] from an affine image [L b + d] of
    the viewport basis: the matrix derived from them is [M] after
    [p |-> L p + d]. *)
Lemma derived_after (M M' : mat3) (L : mat2) (d : vec2) (b : coords) :
  pt0 b = vadd (dot_vec L (pt0 (get_coords_from_size (float_pair s)))) d ->
  pt1 b = vadd (dot_vec L (pt1 (get_coords_from_size (float_pair s)))) d ->
  pt2 b = vadd (dot_vec L (pt2 (get_coords_from_size (float_pair s)))) d ->
  affine_transform (get_coords_from_size (float_pair s))
                   (affine_multiplication_coords M b) = Ok M' ->
  forall p, affine_multiplication M' p
            = affine_multiplication M (vadd (dot_vec L p) d).
Proof.
  intros E0 E1 E2 HM' p. rewrite (derived_entries s _ size_ok) in HM'.
  injection HM' as <-.
  destruct (nonzero_size_R s size_ok) as [Hw Hh].
  destruct b as [b0 b1 b2]; simpl in E0, E1, E2; subst b0 b1 b2.
  destruct M as [a b c d' e f g h i], L as [l11 l12 l21 l22], d as [dx dy],
    p as [x y].
  unfold affine_multiplication_coords, affine_multiplication, dot_vec, vadd,
    get_coords_from_size, float_pair; simpl.
  f_equal; field; tauto.
Qed.

(** Corners moved by an affine map [q |-> L (q - t) + t] of image space:
    the derived matrix is the old derived matrix followed by that map. *)
Lemma derived_before (M M' : mat3) (L : mat2) (t : vec2) (c : coords) :
  affine_transform (get_coords_from_size (float_pair s)) c = Ok M ->
  affine_transform (get_coords_from_size (float_pair s))
                   (coords_add (dot_coords L (coords_sub c t)) t) = Ok M' ->
  forall p, affine_multiplication M' p
            = vadd (dot_vec L (vsub (affine_multiplication M p) t)) t.
Proof.
  intros HM HM' p.
  rewrite (derived_entries s _ size_ok) in HM.
  rewrite (derived_entries s _ size_ok) in HM'.
  injection HM as <-. injection HM' as <-.
  destruct (nonzero_size_R s size_ok) as [Hw Hh].
  destruct c as [[x0 y0] [x1 y1] [x2 y2]], L as [l11 l12 l21 l22],
    t as [tx ty], p as [x y].
  unfold affine_multiplication, dot_vec, vadd, vsub, coords_add, coords_sub,
    dot_coords; simpl.
  f_equal; field; tauto.
Qed.

(** Cross products.  The viewport basis has cross product W * H; a matrix
    multiplies a cross product by the determinant of its linear part. *)
Lemma det_viewport : det2 (delta_coords (get_coords_from_size (float_pair s)))
                     = IZR (fst s) * IZR (snd s).
Proof. unfold det2, delta_coords, get_coords_from_size, float_pair; simpl. ring. Qed.

Lemma det_viewport_nonzero :
  det2 (delta_coords (get_coords_from_size (float_pair s))) <> 0.
Proof.
  rewrite det_viewport. destruct (nonzero_size_R s size_ok) as [Hw Hh].
  intros E. apply Rmult_integral in E. tauto.
Qed.

End DerivedMatrix.

Lemma vsub_vadd_vneg (u v : vec2) : vsub u v = vadd u (vneg v).
Proof. destruct u, v. unfold vsub, vadd, vneg; simpl. f_equal; ring. Qed.

Lemma dot_vec_identity (v : vec2) : dot_vec (M2 1 0 0 1) v = v.
Proof. destruct v. unfold dot_vec; simpl. f_equal; ring. Qed.



Lemma det_shift (d : vec2) (b : coords) :
  det2 (delta_coords (coords_add b d)) = det2 (delta_coords b)
  /\ det2 (delta_coords (coords_sub b d)) = det2 (delta_coords b).
Proof.
  destruct d, b as [[x0 y0] [x1 y1] [x2 y2]].
  unfold det2, delta_coords, coords_add, coords_sub, vadd, vsub; simpl.
  split; ring.
Qed.


(** ** What each method does on a state with an image and a viewport
       without a zero dimension *)

Section MethodFacts.

Variable self : t.
Hypothesis image_ok : has_image self.
Hypothesis size_ok : nonzero_size (size self).

Lemma loaded : (nd_size (core_image self) =? 0)%Z = false.
Proof. apply Z.eqb_neq. exact image_ok. Qed.

Lemma update_runs :
  exists M,
    affine_transform (get_coords_from_size (float_pair (size self)))
                     (corners self) = Ok M /\
    update_affine_transform_matrix self
    = (Ok tt, set_affine_transform_matrix M self).
Proof.
  eexists. split; [apply derived_entries; exact size_ok|].
  unfold update_affine_transform_matrix, bind, lift, assign.
  rewrite (derived_entries _ _ size_ok). reflexivity.
Qed.

Lemma pan_runs (delta : vec2) :
  let c := affine_multiplication_coords (affine_transform_matrix self)
             (coords_add (get_coords_from_size (float_pair (size self))) delta) in
  exists M,
    affine_transform (get_coords_from_size (float_pair (size self))) c = Ok M /\
    pan delta self
    = (Ok tt, Self (core_image self) M c (size self) (background_color self)).
Proof.
  intros c. unfold pan. rewrite loaded.
  apply corners_then_update. exact size_ok.
Qed.

Lemma zoom_runs (zoom_factor : factor) (zoom_center : option vec2) :
  let zm := M2 (fst (factor_pair zoom_factor)) 0 0 (snd (factor_pair zoom_factor)) in
  let zc := center_or_middle zoom_center (size self) in
  let c := affine_multiplication_coords (affine_transform_matrix self)
             (coords_sub
                (dot_coords zm (get_coords_from_size (float_pair (size self))))
                (vsub (dot_vec zm zc) zc)) in
  exists M,
    affine_transform (get_coords_from_size (float_pair (size self))) c = Ok M /\
    zoom zoom_factor zoom_center self
    = (Ok tt, Self (core_image self) M c (size self) (background_color self)).
Proof.
  intros zm zc c. unfold zoom. rewrite loaded.
  apply corners_then_update. exact size_ok.
Qed.

Lemma rotate_runs (rad_angle : R) (rot_center : option vec2) :
  let t := affine_multiplication (affine_transform_matrix self)
             (center_or_middle rot_center (size self)) in
  let c := coords_add
             (dot_coords
                (M2 (cos rad_angle) (- sin rad_angle) (sin rad_angle) (cos rad_angle))
                (coords_sub (corners self) t)) t in
  exists M,
    affine_transform (get_coords_from_size (float_pair (size self))) c = Ok M /\
    rotate rad_angle rot_center self
    = (Ok tt, Self (core_image self) M c (size self) (background_color self)).
Proof.
  intros t c. unfold rotate. rewrite loaded.
  apply corners_then_update. exact size_ok.
Qed.

End MethodFacts.

Lemma turned_view_is_view : view turned_view.
Proof.
  split.
  - unfold has_image; vm_compute; discriminate.
  - split; simpl; discriminate.
  - unfold collinear; simpl; lra.
  - unfold matrix_current. rewrite derived_entries by (split; simpl; discriminate).
    simpl. f_equal; f_equal; field.
Qed.

(** ** Anchors and pans *)

(** C5 -- zoom anchor invariance.  On a state with an image, a viewport
    without a zero dimension and a current matrix, [zoom(factor, c)]
    returns, leaves a current matrix, and the image-space point the matrix
    sends the viewport pixel [c] to is the same after the call as before.
    Neither the factor nor the corners are restricted: the equation also
    holds at a zero factor and at collinear corners. *)
Theorem zoom_anchor_invariance (self : t) (zoom_factor : factor) (c : vec2) :
  has_image self -> nonzero_size (size self) -> matrix_current self ->
  exists self',
    zoom zoom_factor (Some c) self = (Ok tt, self') /\
    matrix_current self' /\
    affine_multiplication (affine_transform_matrix self') c
    = affine_multiplication (affine_transform_matrix self) c.
Proof.
  intros Hi Hs _.
  destruct (zoom_runs self Hi Hs zoom_factor (Some c)) as (M' & HM' & Hz).
  simpl in HM', Hz.
  eexists. split; [exact Hz|]. split; [exact HM'|]. simpl.
  set (zm := M2 (fst (factor_pair zoom_factor)) 0 0 (snd (factor_pair zoom_factor))) in *.
  rewrite (derived_after (size self) Hs (affine_transform_matrix self) M' zm
             (vneg (vsub (dot_vec zm c) c))
             (coords_sub
                (dot_coords zm (get_coords_from_size (float_pair (size self))))
                (vsub (dot_vec zm c) c))
             (vsub_vadd_vneg _ _) (vsub_vadd_vneg _ _) (vsub_vadd_vneg _ _) HM').
  f_equal. destruct c as [x y]. unfold vadd, vneg, vsub, dot_vec; simpl.
  f_equal; ring.
Qed.

Lemma zoom_anchor_invariance_witness :
  exists self',
    zoom (Scalar (1 / 2)) (Some (V2 3 1)) turned_view = (Ok tt, self') /\
    matrix_current self' /\
    affine_multiplication (affine_transform_matrix self') (V2 3 1)
    = affine_multiplication (affine_transform_matrix turned_view) (V2 3 1).
Proof.
  apply (zoom_anchor_invariance turned_view (Scalar (1 / 2)) (V2 3 1)).
  - unfold has_image; vm_compute; discriminate.
  - split; simpl; discriminate.
  - apply turned_view_is_view.
Defined.

(** C6 -- rotation anchor invariance.  On a state with an image, a
    viewport without a zero dimension and a current matrix, whatever pans,
    zooms and rotations produced its corners, [rotate(angle, c)] returns,
    leaves a current matrix, and the image-space point the matrix sends the
    viewport pixel [c] to is the same after the call as before. *)
Theorem rotation_anchor_invariance (self : t) (rad_angle : R) (c : vec2) :
  has_image self -> nonzero_size (size self) -> matrix_current self ->
  exists self',
    rotate rad_angle (Some c) self = (Ok tt, self') /\
    matrix_current self' /\
    affine_multiplication (affine_transform_matrix self') c
    = affine_multiplication (affine_transform_matrix self) c.
Proof.
  intros Hi Hs Hc.
  destruct (rotate_runs self Hi Hs rad_angle (Some c)) as (M' & HM' & Hr).
  simpl in HM', Hr.
  eexists. split; [exact Hr|]. split; [exact HM'|]. simpl.
  rewrite (derived_before (size self) Hs _ M' _ _ _ Hc HM').
  destruct (affine_multiplication (affine_transform_matrix self) c) as [tx ty].
  unfold vadd, vsub, dot_vec; simpl. f_equal; ring.
Qed.

Lemma rotation_anchor_invariance_witness :
  exists self',
    rotate (PI / 3) (Some (V2 3 1)) turned_view = (Ok tt, self') /\
    matrix_current self' /\
    affine_multiplication (affine_transform_matrix self') (V2 3 1)
    = affine_multiplication (affine_transform_matrix turned_view) (V2 3 1).
Proof.
  apply (rotation_anchor_invariance turned_view (PI / 3) (V2 3 1)).
  - unfold has_image; vm_compute; discriminate.
  - split; simpl; discriminate.
  - apply turned_view_is_view.
Defined.

(** C7 -- pan and inverse pan.  On a state with an image, a viewport
    without a zero dimension and a current matrix, whatever zooms and
    rotations produced its corners, [pan(d)] and then [pan(-d)] both
    return, and the corners (indeed the whole object) are what they were,
    exactly. *)
Theorem pan_then_inverse_pan (self : t) (delta : vec2) :
  has_image self -> nonzero_size (size self) -> matrix_current self ->
  exists self1 self2,
    pan delta self = (Ok tt, self1) /\
    pan (vneg delta) self1 = (Ok tt, self2) /\
    corners self2 = corners self /\
    self2 = self.
Proof.
  intros Hi Hs Hc.
  destruct (pan_runs self Hi Hs delta) as (M1 & HM1 & Hp1). simpl in HM1, Hp1.
  set (self1 := Self (core_image self) M1 _ (size self) (background_color self)) in Hp1.
  destruct (pan_runs self1 Hi Hs (vneg delta)) as (Mb & HMb & Hpb).
  simpl in HMb, Hpb.
  assert (Hback :
    affine_multiplication_coords M1
      (coords_add (get_coords_from_size (float_pair (size self))) (vneg delta))
    = corners self).
  { rewrite <- (affine_transform_maps _ _ _ Hc).
    pose proof (derived_after (size self) Hs (affine_transform_matrix self) M1
                  (M2 1 0 0 1) delta
                  (coords_add (get_coords_from_size (float_pair (size self))) delta))
      as E.
    simpl in E.
    specialize (E ltac:(rewrite dot_vec_identity; reflexivity)
                  ltac:(rewrite dot_vec_identity; reflexivity)
                  ltac:(rewrite dot_vec_identity; reflexivity) HM1).
    unfold affine_multiplication_coords; simpl.
    rewrite !E, !dot_vec_identity.
    assert (Hv : forall u, vadd (vadd u (vneg delta)) delta = u).
    { intros [ux uy]. destruct delta. unfold vadd, vneg; simpl. f_equal; ring. }
    rewrite !Hv. reflexivity. }
  rewrite Hback in HMb, Hpb.
  exists self1. eexists. split; [exact Hp1|]. split; [exact Hpb|].
  split; [reflexivity|].
  rewrite Hc in HMb. injection HMb as <-. destruct self; reflexivity.
Qed.

Lemma pan_then_inverse_pan_witness :
  exists self1 self2,
    pan (V2 5 (-3)) turned_view = (Ok tt, self1) /\
    pan (vneg (V2 5 (-3))) self1 = (Ok tt, self2) /\
    corners self2 = corners turned_view /\
    self2 = turned_view.
Proof.
  apply (pan_then_inverse_pan turned_view (V2 5 (-3))).
  - unfold has_image; vm_compute; discriminate.
  - split; simpl; discriminate.
  - apply turned_view_is_view.
Defined.

(** ** Frame *)

Lemma update_frame (self : t) :
  frame_kept self (snd (update_affine_transform_matrix self)) /\
  corners (snd (update_affine_transform_matrix self)) = corners self.
Proof.
  unfold update_affine_transform_matrix, bind, lift, assign, frame_kept.
  destruct (affine_transform _ _); simpl; auto.
Qed.

Lemma corners_update_frame (c : coords) (self : t) :
  frame_kept self
    (snd ((assign (set_corners c) ;; update_affine_transform_matrix) self)).
Proof.
  unfold bind, assign. simpl.
  pose proof (update_frame (set_corners c self)) as [F _].
  destruct (update_affine_transform_matrix (set_corners c self)) as [[[]|e] s'];
    exact F.
Qed.

Lemma frame_kept_refl (self : t) : frame_kept self self.
Proof. unfold frame_kept; auto. Qed.

(** C10 -- frame.  Whatever the state and the arguments, and whether the
    call returns or raises, [pan], [zoom], [rotate] and [get_image] leave
    the raster, the viewport size and the background colour as they were,
    and [get_image] leaves the corners as they were too. *)
Theorem mutators_frame (self : t) (delta : vec2) (zoom_factor : factor)
    (rad_angle : R) (center : option vec2) :
  frame_kept self (snd (pan delta self)) /\
  frame_kept self (snd (zoom zoom_factor center self)) /\
  frame_kept self (snd (rotate rad_angle center self)) /\
  frame_kept self (snd (get_image self)) /\
  corners (snd (get_image self)) = corners self.
Proof.
  repeat split.
  1-9: (unfold pan, zoom, rotate;
        destruct (nd_size (core_image self) =? 0)%Z;
        [ apply frame_kept_refl | apply corners_update_frame ]).
  all: unfold get_image; destruct (nd_size (core_image self) =? 0)%Z;
    [ simpl; reflexivity | ].
  all: unfold bind, try_except_LinAlgError, lift, ret.
  all: pose proof (update_frame self) as [(F1 & F2 & F3) F4].
  all: destruct (update_affine_transform_matrix self) as [[[]|e] s']; simpl in *;
    [ | assumption ].
  all: destruct (affine_inverse (affine_transform_matrix s')) as [inv | []];
    simpl; assumption.
Qed.

(** ** Reset *)

Lemma update_after_corners (self : t) (c : coords) :
  nonzero_size (size self) ->
  exists M,
    affine_transform (get_coords_from_size (float_pair (size self))) c = Ok M /\
    update_affine_transform_matrix (set_corners c self)
    = (Ok tt, Self (core_image self) M c (size self) (background_color self)).
Proof.
  intros Hs. destruct (corners_then_update self c Hs) as (M & HM & E).
  exists M. split; [exact HM|]. exact E.
Qed.

Lemma shape_dims_nonzero (a : ndarray) (h w : Z) (rest : list Z) :
  nd_size a <> 0%Z -> shape a = h :: w :: rest -> h <> 0%Z /\ w <> 0%Z.
Proof.
  unfold nd_size. intros Hn E. rewrite E in Hn. simpl in Hn.
  split; intros ->; apply Hn; [reflexivity | ].
  rewrite Z.mul_0_l, Z.mul_0_r. reflexivity.
Qed.

Lemma nonzero_size_bool (s : Z * Z) :
  nonzero_size s ->
  (fst s =? 0)%Z = false /\ (snd s =? 0)%Z = false /\ zero_in_pair s = false
  /\ is_0_0 s = false.
Proof.
  intros [Hw Hh]. apply Z.eqb_neq in Hw, Hh.
  unfold zero_in_pair, is_0_0. rewrite Hw, Hh. auto.
Qed.

Lemma bind_lift_ok {A B : Type} (a : A) (k : A -> method B) (self : t) :
  bind (lift (Ok a)) k self = k a self.
Proof. reflexivity. Qed.

Lemma bind_ret {A B : Type} (a : A) (k : A -> method B) (self : t) :
  bind (ret a) k self = k a self.
Proof. reflexivity. Qed.

Lemma bind_assign {B : Type} (f : t -> t) (k : unit -> method B) (self : t) :
  bind (assign f) k self = k tt (f self).
Proof. reflexivity. Qed.

Lemma bind_bind {A B C : Type} (m : method A) (k1 : A -> method B)
    (k2 : B -> method C) (self : t) :
  bind (bind m k1) k2 self = bind m (fun a => bind (k1 a) k2) self.
Proof. unfold bind. destruct (m self) as [[a | e] s']; reflexivity. Qed.

Lemma py_div_ok (a b : Z) : b <> 0%Z -> py_div a b = Ok (IZR a / IZR b).
Proof.
  intros Hb. unfold py_div. apply Z.eqb_neq in Hb. rewrite Hb. reflexivity.
Qed.

Ltac method_step :=
  first [ rewrite bind_bind | rewrite bind_lift_ok | rewrite bind_ret
        | rewrite bind_assign ];
  cbv beta.

Lemma reset_corners_runs (self : t) (h w : Z) (rest : list Z) :
  has_image self -> nonzero_size (size self) ->
  shape (core_image self) = h :: w :: rest ->
  exists width height offset M,
    width <> 0 /\ height <> 0 /\
    affine_transform (get_coords_from_size (float_pair (size self)))
      (coords_sub (get_coords_from_size (width, height)) offset) = Ok M /\
    reset_corners self
    = (Ok tt, Self (core_image self) M
                (coords_sub (get_coords_from_size (width, height)) offset)
                (size self) (background_color self)) /\
    (IZR h / IZR w = IZR (snd (size self)) / IZR (fst (size self)) ->
       (width, height, offset) = (IZR w, IZR h, V2 0 0)) /\
    (IZR h / IZR w > IZR (snd (size self)) / IZR (fst (size self)) ->
       height = IZR h /\
       width = IZR (fst (size self)) / IZR (snd (size self)) * height /\
       offset = V2 ((width - IZR w) / 2) 0) /\
    (IZR h / IZR w < IZR (snd (size self)) / IZR (fst (size self)) ->
       width = IZR w /\
       height = IZR (snd (size self)) / IZR (fst (size self)) * width /\
       offset = V2 0 ((height - IZR h) / 2)).
Proof.
  intros Hi Hs Hshape.
  destruct (shape_dims_nonzero _ h w rest Hi Hshape) as [Hh Hw].
  destruct (nonzero_size_bool _ Hs) as (_ & _ & Bz & _).
  destruct Hs as [Hsw Hsh]. pose proof (conj Hsw Hsh) as Hs.
  destruct (nonzero_size_R _ Hs) as [RW RH].
  assert (Rh : IZR h <> 0) by (intros E; apply eq_IZR_R0 in E; contradiction).
  assert (Rw : IZR w <> 0) by (intros E; apply eq_IZR_R0 in E; contradiction).
  assert (Hz2 : zero_in (firstn 2 (h :: w :: rest)) = false).
  { unfold zero_in. cbn [firstn existsb].
    rewrite (proj2 (Z.eqb_neq 0 h)), (proj2 (Z.eqb_neq 0 w)) by auto.
    reflexivity. }
  unfold reset_corners.
  rewrite Bz, (loaded self Hi), Hshape, Hz2. cbn [orb]. cbv zeta.
  change (index (h :: w :: rest) 0) with (Ok h).
  change (index (h :: w :: rest) 1) with (Ok w).
  do 2 method_step.
  rewrite (py_div_ok h w Hw). method_step.
  rewrite (py_div_ok _ _ Hsw). method_step.
  destruct (Req_dec_T (IZR h / IZR w)
              (IZR (snd (size self)) / IZR (fst (size self)))) as [Eq | Ne].
  - do 2 method_step.
    destruct (update_after_corners self
                (coords_sub (get_coords_from_size (IZR w, IZR h)) (V2 0 0)) Hs)
      as (M & HM & HU).
    exists (IZR w), (IZR h), (V2 0 0), M.
    split; [exact Rw|]. split; [exact Rh|]. split; [exact HM|].
    split; [exact HU|].
    split; [reflexivity|]. split; intros Hcmp; lra.
  - destruct (Rgt_dec (IZR h / IZR w)
                (IZR (snd (size self)) / IZR (fst (size self)))) as [Gt | NGt].
    + rewrite (py_div_ok _ _ Hsh). do 4 method_step. cbv zeta.
      set (width := IZR (fst (size self)) / IZR (snd (size self)) * IZR h).
      destruct (update_after_corners self
                  (coords_sub (get_coords_from_size (width, IZR h))
                     (V2 ((width - IZR w) / 2) 0)) Hs)
        as (M & HM & HU).
      exists width, (IZR h), (V2 ((width - IZR w) / 2) 0), M.
      split.
      { unfold width. apply Rmult_integral_contrapositive_currified; [|exact Rh].
        unfold Rdiv. apply Rmult_integral_contrapositive_currified;
          [exact RW | apply Rinv_neq_0_compat; exact RH]. }
      split; [exact Rh|]. split; [exact HM|].
      split; [exact HU|].
      split; [intros Hcmp; contradiction|].
      split; [intros _; auto | intros Hcmp; lra].
    + do 4 method_step. cbv zeta.
      set (height := IZR (snd (size self)) / IZR (fst (size self)) * IZR w).
      destruct (update_after_corners self
                  (coords_sub (get_coords_from_size (IZR w, height))
                     (V2 0 ((height - IZR h) / 2))) Hs)
        as (M & HM & HU).
      exists (IZR w), height, (V2 0 ((height - IZR h) / 2)), M.
      split; [exact Rw|].
      split.
      { unfold height. apply Rmult_integral_contrapositive_currified; [|exact Rw].
        unfold Rdiv. apply Rmult_integral_contrapositive_currified;
          [exact RH | apply Rinv_neq_0_compat; exact RW]. }
      split; [exact HM|].
      split; [exact HU|].
      split; [intros Hcmp; contradiction|].
      split; [intros Hcmp; lra | intros _; auto].
Qed.

(** ** The invariant *)



Section Preservation.

Variable self : t.
Hypothesis self_view : view self.

Let image_ok : has_image self := view_image self self_view.
Let size_ok : nonzero_size (size self) := view_size self self_view.





Lemma reset_view :
  view (snd (reset_corners self))
  /\ core_image (snd (reset_corners self)) = core_image self
  /\ ((2 <= length (shape (core_image self)))%nat ->
      fst (reset_corners self) = Ok tt).
Proof.
  destruct (shape (core_image self)) as [| h [| w rest]] eqn:Hshape.
  - (* a 0-dimensional array: img_shape[0] raises *)
    unfold reset_corners.
    rewrite (proj1 (proj2 (proj2 (nonzero_size_bool _ size_ok)))),
      (loaded self image_ok), Hshape.
    simpl. split; [exact self_view|]. split; [reflexivity|].
    intros Hl. inversion Hl.
  - (* a 1-dimensional array: img_shape[1] raises *)
    assert (Hh : (0 =? h)%Z = false).
    { apply Z.eqb_neq. intros <-. apply image_ok. unfold nd_size.
      rewrite Hshape. reflexivity. }
    unfold reset_corners.
    rewrite (proj1 (proj2 (proj2 (nonzero_size_bool _ size_ok)))),
      (loaded self image_ok), Hshape.
    unfold zero_in. cbn [firstn existsb orb]. rewrite Hh. cbn [orb]. cbv zeta.
    change (index [h] 0) with (Ok h). method_step.
    change (index [h] 1) with (@Raise Z IndexError).
    unfold bind, lift. cbn [fst snd].
    split; [exact self_view|]. split; [reflexivity|].
    intros Hl. simpl in Hl. inversion Hl as [|? Hl']. inversion Hl'.
  - destruct (reset_corners_runs self h w rest image_ok size_ok Hshape)
      as (width & height & offset & M & Hwd & Hht & HM & Hr & _).
    rewrite Hr. cbn [fst snd]. split; [|split; [reflexivity | reflexivity]].
    split; simpl; [exact image_ok | exact size_ok | | exact HM].
    rewrite collinear_det, (proj2 (det_shift _ _)).
    unfold det2, delta_coords, get_coords_from_size; simpl.
    intros E. assert (E' : width * height = 0) by lra.
    apply Rmult_integral in E'. tauto.
Qed.


End Preservation.


(** Views exist: loading an image of at least two dimensions into an
    object whose viewport has no zero dimension gives one. *)
Lemma load_image_view (self : t) (img : ndarray) (h w : Z) (rest : list Z) :
  nd_size img <> 0%Z -> shape img = h :: w :: rest ->
  nonzero_size (size self) ->
  exists self', load_image img self = (Ok tt, self') /\ view self'.
Proof.
  intros Hi Hshape Hs. unfold load_image. rewrite bind_assign.
  destruct (reset_corners_runs (set_core_image img self) h w rest Hi Hs Hshape)
    as (width & height & offset & M & Hwd & Hht & HM & Hr & _).
  eexists. split; [exact Hr|].
  split; simpl; [exact Hi | exact Hs | | exact HM].
  rewrite collinear_det, (proj2 (det_shift _ _)).
  unfold det2, delta_coords, get_coords_from_size; simpl.
  intros E. assert (E' : width * height = 0) by lra.
  apply Rmult_integral in E'. tauto.
Qed.



(** C8 -- the centered fit of [reset_corners].  With an image of h rows and
    w columns loaded and a viewport W x H without a zero dimension, the
    call returns and sets the three corners to (-ox, -oy),
    (width - ox, -oy) and (-ox, height - oy), the matrix being derived
    from them, where the fitted rectangle width x height and the offset
    (ox, oy) are chosen in three branches on h / w against H / W: equal,
    the image's own size and no offset; image relatively taller
    (h / w > H / W), height = h, width = W / H * height, ox =
    (width - w) / 2, oy = 0; image relatively wider, width = w,
    height = H / W * width, ox = 0, oy = (height - h) / 2. *)
Theorem reset_centered_fit (self : t) (h w : Z) (rest : list Z) :
  has_image self -> nonzero_size (size self) ->
  shape (core_image self) = h :: w :: rest ->
  let W := IZR (fst (size self)) in
  let H := IZR (snd (size self)) in
  exists width height ox oy self',
    reset_corners self = (Ok tt, self') /\
    corners self' = C3 (V2 (- ox) (- oy))
                       (V2 (width - ox) (- oy))
                       (V2 (- ox) (height - oy)) /\
    matrix_current self' /\
    (IZR h / IZR w = H / W ->
       width = IZR w /\ height = IZR h /\ ox = 0 /\ oy = 0) /\
    (IZR h / IZR w > H / W ->
       height = IZR h /\ width = W / H * height /\
       ox = (width - IZR w) / 2 /\ oy = 0) /\
    (IZR h / IZR w < H / W ->
       width = IZR w /\ height = H / W * width /\
       ox = 0 /\ oy = (height - IZR h) / 2).
Proof.
  intros Hi Hs Hshape W H.
  destruct (reset_corners_runs self h w rest Hi Hs Hshape)
    as (width & height & [ox oy] & M & _ & _ & HM & Hr & B1 & B2 & B3).
  exists width, height, ox, oy. eexists.
  split; [exact Hr|]. split.
  { unfold coords_sub, get_coords_from_size, vsub; simpl.
    f_equal; f_equal; ring. }
  split; [exact HM|].
  split; [|split].
  - intros E. specialize (B1 E). injection B1 as -> -> -> ->. auto.
  - intros E. destruct (B2 E) as (Hh & Hw & Ho). injection Ho as -> ->. auto.
  - intros E. destruct (B3 E) as (Hw & Hh & Ho). injection Ho as -> ->. auto.
Qed.

(** Viewport 800 x 600, image 400 x 400: fitted height 400, fitted width
    800/600 * 400 = 1600/3, horizontal offset (1600/3 - 400) / 2 = 200/3
    on each side, so the corners are (-200/3, 0), (1400/3, 0) and
    (-200/3, 400). *)
Lemma reset_centered_fit_witness :
  exists self',
    reset_corners square_in_800_600 = (Ok tt, self') /\
    corners self' = C3 (V2 (- (200 / 3)) 0) (V2 (1400 / 3) 0)
                       (V2 (- (200 / 3)) 400) /\
    matrix_current self'.
Proof.
  destruct (reset_centered_fit square_in_800_600 400 400 [3%Z])
    as (width & height & ox & oy & self' & Hr & Hc & Hm & _ & Taller & _).
  - unfold has_image, nd_size; cbn [square_in_800_600 core_image square_image
                                    shape fold_right]. lia.
  - split; simpl; discriminate.
  - reflexivity.
  - exists self'. split; [exact Hr|]. split; [|exact Hm]. rewrite Hc.
    destruct Taller as (Hh & Hw & Hox & Hoy); [simpl; lra|].
    simpl in Hw. f_equal; f_equal; lra.
Defined.

(** The sentence of C8 that names the multiplier, at the same instance.
    The image is relatively taller in the comparison the code makes,
    400/400 > 600/800, and the fitted rectangle read off the corners is
    800/600 * 400 wide and 400 high.  With viewport_aspect the quotient
    600/800 that h / w is compared with, viewport_aspect * fitted height
    is not the fitted width; with viewport_aspect the multiplier 800/600,
    the image is not relatively taller (400/400 > 800/600 fails), yet the
    fitted width is not the image width. *)
Lemma reset_fit_counterexample :
  exists self',
    reset_corners square_in_800_600 = (Ok tt, self') /\
    let fitted_width := vx (pt1 (corners self')) - vx (pt0 (corners self')) in
    let fitted_height := vy (pt2 (corners self')) - vy (pt0 (corners self')) in
    fitted_width = 800 / 600 * 400 /\ fitted_height = 400 /\
    (400 / 400 > 600 / 800 /\ fitted_width <> 600 / 800 * fitted_height) /\
    (~ 400 / 400 > 800 / 600 /\ fitted_width <> 400).
Proof.
  destruct (reset_corners_runs square_in_800_600 400 400 [3%Z])
    as (width & height & [ox oy] & M & _ & _ & _ & Hr & _ & Taller & _).
  - unfold has_image, nd_size; cbn [square_in_800_600 core_image square_image
                                    shape fold_right]. lia.
  - split; simpl; discriminate.
  - reflexivity.
  - eexists. split; [exact Hr|].
    destruct Taller as (Hh & Hw & _); [simpl; lra|].
    simpl in Hw.
    unfold coords_sub, get_coords_from_size, vsub; simpl.
    repeat split; lra.
Defined.

(** ** Degenerate states *)

Section ZeroViewport.

Variable self : t.
Hypothesis image_ok : has_image self.
Hypothesis zero_dim : zero_in_pair (size self) = true.

Lemma update_raises (c : coords) :
  update_affine_transform_matrix (set_corners c self)
  = (Raise LinAlgError, set_corners c self).
Proof.
  unfold update_affine_transform_matrix, bind, lift. simpl.
  rewrite (derived_fails _ _ zero_dim). reflexivity.
Qed.

(** With an image loaded and a zero viewport dimension the matrix cannot be
    derived, and the LinAlgError of the derivation leaves [get_image]:
    the call that raises it stands before the [try]. *)
Lemma get_image_zero_viewport : get_image self = (Raise LinAlgError, self).
Proof.
  unfold get_image. rewrite (loaded self image_ok).
  unfold bind at 1. unfold update_affine_transform_matrix, bind, lift.
  rewrite (derived_fails _ _ zero_dim). reflexivity.
Qed.

(** [pan], [zoom] and [rotate] assign the corners and then raise. *)
Lemma mutators_zero_viewport (delta : vec2) (zoom_factor : factor)
    (rad_angle : R) (center : option vec2) :
  fst (pan delta self) = Raise LinAlgError /\
  fst (zoom zoom_factor center self) = Raise LinAlgError /\
  fst (rotate rad_angle center self) = Raise LinAlgError.
Proof.
  unfold pan, zoom, rotate. rewrite (loaded self image_ok).
  repeat split; rewrite bind_assign, update_raises; reflexivity.
Qed.

End ZeroViewport.

(** With an image loaded and no zero viewport dimension [get_image] always
    returns: the empty array when the corners are collinear, the resampled
    image otherwise. *)
Lemma get_image_sized (self : t) :
  has_image self -> nonzero_size (size self) ->
  exists M,
    affine_transform (get_coords_from_size (float_pair (size self)))
                     (corners self) = Ok M /\
    (collinear (corners self) ->
       get_image self
       = (Ok (Array empty_ndarray), set_affine_transform_matrix M self)) /\
    (~ collinear (corners self) ->
       exists Mi,
         affine_inverse M = Ok Mi /\
         get_image self
         = (Ok (affine_image_transform (core_image self) Mi (size self)
                  (background_color self)),
            set_affine_transform_matrix M self)).
Proof.
  intros Hi Hs. destruct (update_runs self Hs) as (M & HM & HU).
  exists M. split; [exact HM|].
  pose proof (affine_transform_det _ _ _ HM) as Hd.
  assert (G : get_image self
              = try_except_LinAlgError
                  (fun self =>
                     (inv <- lift (affine_inverse (affine_transform_matrix self)) ;;
                      ret (affine_image_transform (core_image self) inv
                             (size self) (background_color self))) self)
                  (ret (Array empty_ndarray))
                  (set_affine_transform_matrix M self)).
  { unfold get_image. rewrite (loaded self Hi). unfold bind at 1.
    rewrite HU. reflexivity. }
  split.
  - intros Hc. apply (proj1 (collinear_det _)) in Hc. rewrite Hc in Hd.
    apply Rmult_integral in Hd. destruct Hd as [Hd | Hd];
      [| exfalso; exact (det_viewport_nonzero _ Hs Hd)].
    rewrite G. unfold try_except_LinAlgError, bind, lift, ret, affine_inverse.
    cbn [affine_transform_matrix set_affine_transform_matrix].
    rewrite (linalg_inv_singular _ Hd). reflexivity.
  - intros Hc.
    assert (Hn : det2 (inner_of M) <> 0).
    { intros Hz. rewrite Hz, Rmult_0_l in Hd.
      apply Hc, collinear_det. symmetry. exact Hd. }
    eexists. rewrite G.
    unfold try_except_LinAlgError, bind, lift, ret, affine_inverse.
    cbn [affine_transform_matrix set_affine_transform_matrix].
    rewrite (linalg_inv_regular _ Hn). cbn [rbind].
    split; reflexivity.
Qed.

(** C1 -- [get_image] with an image loaded.  [ImageControl(image=img)]
    keeps the default viewport (0, 0); on that object [get_image] raises
    LinAlgError instead of returning an empty array. *)
Theorem get_image_raises_before_first_resize :
  init (Some small_image) (0, 0)%Z (0, 0, 0)%Z = (Ok tt, loaded_unsized) /\
  has_image loaded_unsized /\
  get_image loaded_unsized = (Raise LinAlgError, loaded_unsized).
Proof.
  assert (Hi : has_image loaded_unsized)
    by (unfold has_image; vm_compute; discriminate).
  split; [reflexivity|]. split; [exact Hi|].
  apply get_image_zero_viewport; [exact Hi | reflexivity].
Qed.

(** C2, as stated, fails twice.  Without an image, [resize] stores the new
    size; with an image and a zero viewport dimension, [pan] and
    [get_image] raise. *)
Lemma idle_state_counterexample :
  (no_image blank /\
   resize (800, 600)%Z blank = (Ok tt, set_size (800, 600)%Z blank) /\
   set_size (800, 600)%Z blank <> blank) /\
  (has_image loaded_unsized /\
   zero_in_pair (size loaded_unsized) = true /\
   fst (pan (V2 1 1) loaded_unsized) = Raise LinAlgError /\
   fst (get_image loaded_unsized) = Raise LinAlgError).
Proof.
  assert (Hi : has_image loaded_unsized)
    by (unfold has_image; vm_compute; discriminate).
  split.
  - split; [reflexivity|]. split; [reflexivity|]. discriminate.
  - split; [exact Hi|]. split; [reflexivity|]. split.
    + apply (mutators_zero_viewport loaded_unsized Hi eq_refl
               (V2 1 1) (Scalar 1) 0 None).
    + rewrite (get_image_zero_viewport loaded_unsized Hi eq_refl). reflexivity.
Qed.

(** C2, amended.  While no image is loaded, [pan], [zoom] and [rotate]
    return and leave the whole object as it was; [resize] returns and
    changes the viewport size, and nothing else, to the new size;
    [get_image] returns the stored array, whose size is zero, and leaves
    the object as it was. *)
Theorem no_image_is_idle (self : t) (delta : vec2) (zoom_factor : factor)
    (rad_angle : R) (center : option vec2) (new_size : Z * Z) :
  no_image self ->
  pan delta self = (Ok tt, self) /\
  zoom zoom_factor center self = (Ok tt, self) /\
  rotate rad_angle center self = (Ok tt, self) /\
  resize new_size self = (Ok tt, set_size new_size self) /\
  get_image self = (Ok (Array (core_image self)), self) /\
  zero_size (Array (core_image self)).
Proof.
  intros Hn. assert (Hb : (nd_size (core_image self) =? 0)%Z = true)
    by (apply Z.eqb_eq; exact Hn).
  unfold pan, zoom, rotate, get_image, resize, bind, assign, ret.
  cbn [core_image set_size]. rewrite Hb. cbn [negb andb core_image set_size].
  rewrite ?Hb. cbn [negb].
  do 5 (split; [reflexivity|]).
  exists (core_image self). split; [reflexivity | exact Hn].
Qed.

Lemma no_image_is_idle_witness :
  pan (V2 5 (-3)) blank = (Ok tt, blank) /\
  zoom (Scalar 2) None blank = (Ok tt, blank) /\
  rotate 1 (Some (V2 3 1)) blank = (Ok tt, blank) /\
  resize (800, 600)%Z blank = (Ok tt, set_size (800, 600)%Z blank) /\
  get_image blank = (Ok (Array (core_image blank)), blank) /\
  zero_size (Array (core_image blank)).
Proof.
  apply (no_image_is_idle blank (V2 5 (-3)) (Scalar 2) 1 (Some (V2 3 1))
           (800, 600)%Z).
  reflexivity.
Defined.

(* ================================================================== *)
(** * Further properties of the engine *)

(** ** How pans, zooms and rotations compose *)

(** Two states that differ only in corners that are in fact equal, each
    with the matrix derived from its corners, are the same state. *)
Lemma same_corners_same_state (img : ndarray) (s : Z * Z) (bg : color)
    (c c' : coords) (M M' : mat3) :
  affine_transform (get_coords_from_size (float_pair s)) c = Ok M ->
  affine_transform (get_coords_from_size (float_pair s)) c' = Ok M' ->
  c = c' ->
  Self img M c s bg = Self img M' c' s bg.
Proof. intros HM HM' <-. rewrite HM in HM'. injection HM' as <-. reflexivity. Qed.

Lemma coords_ext (c c' : coords) :
  pt0 c = pt0 c' -> pt1 c = pt1 c' -> pt2 c = pt2 c' -> c = c'.
Proof. destruct c, c'; simpl; intros -> -> ->; reflexivity. Qed.

(** A state rebuilt with its own corners and the matrix derived from them
    is the state itself, when its matrix was current. *)
Lemma state_eta (self : t) (M : mat3) (c : coords) :
  affine_transform (get_coords_from_size (float_pair (size self))) c = Ok M ->
  matrix_current self -> c = corners self ->
  Self (core_image self) M c (size self) (background_color self) = self.
Proof.
  intros HM Hc ->. unfold matrix_current in Hc. rewrite Hc in HM.
  injection HM as <-. destruct self; reflexivity.
Qed.

Section Composition.

Variable self : t.
Hypothesis image_ok : has_image self.
Hypothesis size_ok : nonzero_size (size self).

Let B : coords := get_coords_from_size (float_pair (size self)).

(** The matrix a zoom leaves behind is the old matrix after the scaling
    about the center. *)
Lemma zoom_matrix_after (zoom_factor : factor) (zoom_center : option vec2)
    (self' : t) :
  zoom zoom_factor zoom_center self = (Ok tt, self') ->
  let zm := M2 (fst (factor_pair zoom_factor)) 0 0 (snd (factor_pair zoom_factor)) in
  let zc := center_or_middle zoom_center (size self) in
  has_image self' /\ size self' = size self /\
  forall p, affine_multiplication (affine_transform_matrix self') p
            = affine_multiplication (affine_transform_matrix self)
                (vadd (dot_vec zm p) (vneg (vsub (dot_vec zm zc) zc))).
Proof.
  intros Hz zm zc.
  destruct (zoom_runs self image_ok size_ok zoom_factor zoom_center)
    as (M' & HM' & Hz').
  rewrite Hz' in Hz. injection Hz as <-. simpl.
  split; [exact image_ok|]. split; [reflexivity|].
  apply (derived_after (size self) size_ok (affine_transform_matrix self) M' zm
           (vneg (vsub (dot_vec zm zc) zc))
           (coords_sub (dot_coords zm B) (vsub (dot_vec zm zc) zc))
           (vsub_vadd_vneg _ _) (vsub_vadd_vneg _ _) (vsub_vadd_vneg _ _) HM').
Qed.

Lemma pan_matrix_after (delta : vec2) (self' : t) :
  pan delta self = (Ok tt, self') ->
  has_image self' /\ size self' = size self /\
  forall p, affine_multiplication (affine_transform_matrix self') p
            = affine_multiplication (affine_transform_matrix self) (vadd p delta).
Proof.
  intros Hp.
  destruct (pan_runs self image_ok size_ok delta) as (M' & HM' & Hp').
  rewrite Hp' in Hp. injection Hp as <-. simpl.
  split; [exact image_ok|]. split; [reflexivity|]. intros p.
  rewrite (derived_after (size self) size_ok (affine_transform_matrix self) M'
             (M2 1 0 0 1) delta (coords_add B delta)); try exact HM';
    simpl; rewrite ?dot_vec_identity; reflexivity.
Qed.

Lemma zoom_zoom (f1 f2 : factor) (zoom_center : option vec2) :
  (zoom f1 zoom_center ;; zoom f2 zoom_center) self
  = zoom (PerAxis (fst (factor_pair f1) * fst (factor_pair f2))
                  (snd (factor_pair f1) * snd (factor_pair f2)))
         zoom_center self.
Proof.
  destruct (zoom_runs self image_ok size_ok f1 zoom_center) as (M1 & HM1 & Hz1).
  pose proof (zoom_matrix_after f1 zoom_center _ Hz1) as (_ & _ & E1).
  unfold bind. rewrite Hz1.
  set (self1 := Self _ M1 _ _ _) in *.
  destruct (zoom_runs self1 image_ok size_ok f2 zoom_center) as (M2' & HM2 & Hz2).
  destruct (zoom_runs self image_ok size_ok
              (PerAxis (fst (factor_pair f1) * fst (factor_pair f2))
                       (snd (factor_pair f1) * snd (factor_pair f2)))
              zoom_center) as (M12 & HM12 & Hz12).
  rewrite Hz2, Hz12. f_equal.
  apply same_corners_same_state; [exact HM2 | exact HM12 |].
  simpl. unfold affine_multiplication_coords. simpl.
  change (affine_transform_matrix self1) with M1 in E1.
  rewrite !E1.
  destruct (center_or_middle zoom_center (size self)) as [cx cy].
  destruct (factor_pair f1) as [a1 b1], (factor_pair f2) as [a2 b2]. simpl.
  apply coords_ext; simpl; f_equal; unfold vadd, vsub, vneg, dot_vec; simpl;
    f_equal; ring.
Qed.

Lemma pan_pan (d1 d2 : vec2) :
  (pan d1 ;; pan d2) self = pan (vadd d1 d2) self.
Proof.
  destruct (pan_runs self image_ok size_ok d1) as (M1 & HM1 & Hp1).
  pose proof (pan_matrix_after d1 _ Hp1) as (_ & _ & E1).
  unfold bind. rewrite Hp1.
  set (self1 := Self _ M1 _ _ _) in *.
  destruct (pan_runs self1 image_ok size_ok d2) as (M2' & HM2 & Hp2).
  destruct (pan_runs self image_ok size_ok (vadd d1 d2)) as (M12 & HM12 & Hp12).
  rewrite Hp2, Hp12. f_equal.
  apply same_corners_same_state; [exact HM2 | exact HM12 |].
  simpl. unfold affine_multiplication_coords. simpl.
  change (affine_transform_matrix self1) with M1 in E1.
  rewrite !E1.
  destruct d1 as [x1 y1], d2 as [x2 y2].
  apply coords_ext; simpl; f_equal; unfold vadd; simpl; f_equal; ring.
Qed.

Hypothesis matrix_ok : matrix_current self.

Lemma rotate_matrix_after (rad_angle : R) (rot_center : option vec2) (self' : t) :
  rotate rad_angle rot_center self = (Ok tt, self') ->
  let rc := center_or_middle rot_center (size self) in
  let t := affine_multiplication (affine_transform_matrix self) rc in
  let rm := M2 (cos rad_angle) (- sin rad_angle) (sin rad_angle) (cos rad_angle) in
  has_image self' /\ size self' = size self /\ matrix_current self' /\
  corners self' = coords_add (dot_coords rm (coords_sub (corners self) t)) t /\
  forall p, affine_multiplication (affine_transform_matrix self') p
            = vadd (dot_vec rm
                      (vsub (affine_multiplication (affine_transform_matrix self) p) t))
                   t.
Proof.
  intros Hr rc t rm.
  destruct (rotate_runs self image_ok size_ok rad_angle rot_center)
    as (M' & HM' & Hr').
  rewrite Hr' in Hr. injection Hr as <-. simpl.
  split; [exact image_ok|]. split; [reflexivity|]. split; [exact HM'|].
  split; [reflexivity|].
  apply (derived_before (size self) size_ok _ M' _ _ _ matrix_ok HM').
Qed.

Lemma rotate_rotate (a1 a2 : R) (rot_center : option vec2) :
  (rotate a1 rot_center ;; rotate a2 rot_center) self
  = rotate (a1 + a2) rot_center self.
Proof.
  destruct (rotate_runs self image_ok size_ok a1 rot_center) as (M1 & HM1 & Hr1).
  pose proof (rotate_matrix_after a1 rot_center _ Hr1) as (_ & _ & _ & _ & E1).
  unfold bind. rewrite Hr1.
  set (self1 := Self _ M1 _ _ _) in *.
  destruct (rotate_runs self1 image_ok size_ok a2 rot_center) as (M2' & HM2 & Hr2).
  destruct (rotate_runs self image_ok size_ok (a1 + a2) rot_center)
    as (M12 & HM12 & Hr12).
  rewrite Hr2, Hr12. f_equal.
  apply same_corners_same_state; [exact HM2 | exact HM12 |].
  simpl. change (affine_transform_matrix self1) with M1 in E1. rewrite E1.
  rewrite cos_plus, sin_plus.
  destruct (affine_multiplication (affine_transform_matrix self)
              (center_or_middle rot_center (size self))) as [tx ty].
  destruct (corners self) as [[x0 y0] [x1 y1] [x2 y2]].
  apply coords_ext; simpl; unfold vadd, vsub, dot_vec; simpl; f_equal; ring.
Qed.

(** The neutral pan, zoom and rotation. *)
Lemma neutral_calls (center : option vec2) :
  pan (V2 0 0) self = (Ok tt, self) /\
  zoom (Scalar 1) center self = (Ok tt, self) /\
  rotate 0 center self = (Ok tt, self).
Proof.
  pose proof (affine_transform_maps _ _ _ matrix_ok) as Hmaps.
  destruct (pan_runs self image_ok size_ok (V2 0 0)) as (Mp & HMp & Hp).
  destruct (zoom_runs self image_ok size_ok (Scalar 1) center) as (Mz & HMz & Hz).
  destruct (rotate_runs self image_ok size_ok 0 center) as (Mr & HMr & Hr).
  rewrite Hp, Hz, Hr.
  repeat split; f_equal; apply state_eta; try eassumption.
  - rewrite <- Hmaps. fold B. f_equal.
    apply coords_ext; simpl; unfold vadd; simpl; f_equal; ring.
  - rewrite <- Hmaps. fold B. f_equal.
    destruct (center_or_middle center (size self)) as [cx cy].
    apply coords_ext; simpl; unfold vsub, dot_vec; simpl; f_equal; ring.
  - simpl. rewrite cos_0, sin_0.
    destruct (affine_multiplication (affine_transform_matrix self)
                (center_or_middle center (size self))) as [tx ty].
    destruct (corners self) as [[x0 y0] [x1 y1] [x2 y2]].
    apply coords_ext; simpl; unfold vadd, vsub, dot_vec; simpl; f_equal; ring.
Qed.

End Composition.

(** ** Reset *)

Lemma reset_corners_same (self1 self2 : t) (h w : Z) (rest : list Z) :
  has_image self1 -> nonzero_size (size self1) ->
  shape (core_image self1) = h :: w :: rest ->
  frame_kept self1 self2 ->
  reset_corners self2 = reset_corners self1
  /\ exists self', reset_corners self1 = (Ok tt, self') /\ frame_kept self1 self'.
Proof.
  intros Hi Hs Hshape (Fi & Fs & Fb).
  assert (Hi2 : has_image self2) by (unfold has_image; rewrite Fi; exact Hi).
  assert (Hs2 : nonzero_size (size self2)) by (rewrite Fs; exact Hs).
  assert (Hshape2 : shape (core_image self2) = h :: w :: rest)
    by (rewrite Fi; exact Hshape).
  destruct (reset_corners_runs self1 h w rest Hi Hs Hshape)
    as (w1 & h1 & o1 & M1 & _ & _ & HM1 & Hr1 & Eq1 & Gt1 & Lt1).
  destruct (reset_corners_runs self2 h w rest Hi2 Hs2 Hshape2)
    as (w2 & h2 & o2 & M2' & _ & _ & HM2 & Hr2 & Eq2 & Gt2 & Lt2).
  rewrite Fs in *.
  assert (E : (w2, h2, o2) = (w1, h1, o1)).
  { destruct (Rtotal_order (IZR h / IZR w)
                (IZR (snd (size self1)) / IZR (fst (size self1))))
      as [Hlt | [Heq | Hgt]].
    - destruct (Lt1 Hlt) as (-> & -> & ->), (Lt2 Hlt) as (-> & -> & ->).
      reflexivity.
    - rewrite (Eq1 Heq), (Eq2 Heq). reflexivity.
    - destruct (Gt1 Hgt) as (-> & -> & ->), (Gt2 Hgt) as (-> & -> & ->).
      reflexivity. }
  injection E as -> -> ->.
  split.
  - rewrite Hr1, Hr2, Fi, Fb. f_equal.
    rewrite HM1 in HM2. injection HM2 as <-. reflexivity.
  - eexists. split; [exact Hr1|]. unfold frame_kept; simpl. auto.
Qed.

Lemma keeps_viewport_runs (self : t) (c : call) :
  has_image self -> nonzero_size (size self) ->
  (2 <= length (shape (core_image self)))%nat ->
  keeps_viewport c ->
  exists self', perform c self = (Ok tt, self') /\ frame_kept self self'.
Proof.
  intros Hi Hs Hl K. destruct c as [delta | f zc | a rc | | n]; simpl in *.
  - destruct (pan_runs self Hi Hs delta) as (M & _ & E).
    eexists. split; [exact E|]. unfold frame_kept; simpl; auto.
  - destruct (zoom_runs self Hi Hs f zc) as (M & _ & E).
    eexists. split; [exact E|]. unfold frame_kept; simpl; auto.
  - destruct (rotate_runs self Hi Hs a rc) as (M & _ & E).
    eexists. split; [exact E|]. unfold frame_kept; simpl; auto.
  - destruct (shape (core_image self)) as [| h [| w rest]] eqn:Hshape;
      [simpl in Hl; lia | simpl in Hl; lia |].
    destruct (reset_corners_runs self h w rest Hi Hs Hshape)
      as (w1 & h1 & o1 & M1 & _ & _ & _ & Hr1 & _).
    eexists. split; [exact Hr1|]. unfold frame_kept; simpl; auto.
  - contradiction.
Qed.

Lemma frame_kept_trans (s1 s2 s3 : t) :
  frame_kept s1 s2 -> frame_kept s2 s3 -> frame_kept s1 s3.
Proof.
  unfold frame_kept. intros (A1 & A2 & A3) (B1 & B2 & B3).
  rewrite B1, B2, B3. auto.
Qed.

Lemma keeps_viewport_run (cs : list call) (self : t) :
  has_image self -> nonzero_size (size self) ->
  (2 <= length (shape (core_image self)))%nat ->
  Forall keeps_viewport cs ->
  exists self', run cs self = (Ok tt, self') /\ frame_kept self self'.
Proof.
  intros Hi Hs Hl K. revert self Hi Hs Hl.
  induction K as [| c cs Kc _ IH]; intros self Hi Hs Hl.
  - exists self. split; [reflexivity | apply frame_kept_refl].
  - destruct (keeps_viewport_runs self c Hi Hs Hl Kc) as (s1 & E1 & F1).
    pose proof F1 as (Fi & Fs & Fb).
    destruct (IH s1) as (s2 & E2 & F2).
    + unfold has_image. rewrite Fi. exact Hi.
    + rewrite Fs. exact Hs.
    + rewrite Fi. exact Hl.
    + exists s2. split; [|exact (frame_kept_trans _ _ _ F1 F2)].
      cbn [run]. unfold bind. rewrite E1. exact E2.
Qed.

(** X1 -- reset restores the default view.  With an image of at least two
    dimensions loaded and no zero viewport dimension, [reset_corners]
    after any sequence of pans, zooms, rotations and resets returns, and
    gives exactly the state [reset_corners] gives at once: the fit
    depends on the raster, the viewport size and the background colour
    only, not on the corners or the matrix. *)
Theorem reset_restores_default (cs : list call) (self : t) (h w : Z)
    (rest : list Z) :
  has_image self -> nonzero_size (size self) ->
  shape (core_image self) = h :: w :: rest ->
  Forall keeps_viewport cs ->
  exists self',
    reset_corners self = (Ok tt, self') /\
    (run cs ;; reset_corners) self = (Ok tt, self').
Proof.
  intros Hi Hs Hshape K.
  destruct (keeps_viewport_run cs self Hi Hs) as (s1 & E1 & F1);
    [rewrite Hshape; simpl; lia | exact K |].
  destruct (reset_corners_same self s1 h w rest Hi Hs Hshape F1)
    as (Esame & self' & Er & _).
  exists self'. split; [exact Er|].
  unfold bind. rewrite E1, Esame. exact Er.
Qed.

Lemma reset_restores_default_witness :
  exists self',
    reset_corners turned_view = (Ok tt, self') /\
    (run [Pan (V2 5 (-3)); Zoom (Scalar 3) None; Rotate 1 (Some (V2 3 1));
          ResetCorners; Rotate 2 None] ;; reset_corners) turned_view
    = (Ok tt, self').
Proof.
  apply (reset_restores_default _ turned_view 2 2 [3%Z]).
  - unfold has_image; vm_compute; discriminate.
  - split; simpl; discriminate.
  - reflexivity.
  - repeat constructor.
Defined.

(** X2 -- reset is idempotent.  Under the same conditions a second
    [reset_corners] changes nothing (the canvas calls [load_image], which
    resets, and then [reset_corners] again). *)
Theorem reset_idempotent (self : t) (h w : Z) (rest : list Z) :
  has_image self -> nonzero_size (size self) ->
  shape (core_image self) = h :: w :: rest ->
  exists self',
    reset_corners self = (Ok tt, self') /\
    reset_corners self' = (Ok tt, self').
Proof.
  intros Hi Hs Hshape.
  destruct (reset_corners_same self self h w rest Hi Hs Hshape
              (frame_kept_refl self)) as (_ & self' & Er & F).
  exists self'. split; [exact Er|].
  destruct (reset_corners_same self self' h w rest Hi Hs Hshape F) as (E & _).
  rewrite E. exact Er.
Qed.

Lemma reset_idempotent_witness :
  exists self',
    reset_corners square_in_800_600 = (Ok tt, self') /\
    reset_corners self' = (Ok tt, self').
Proof.
  apply (reset_idempotent square_in_800_600 400 400 [3%Z]).
  - unfold has_image, nd_size; cbn [square_in_800_600 core_image square_image
                                    shape fold_right]. lia.
  - split; simpl; discriminate.
  - reflexivity.
Defined.

(** ** Composition of the interactive calls *)

(** X3 -- zooms compose.  With an image loaded and no zero viewport
    dimension, [zoom(f1, c)] followed by [zoom(f2, c)] about the same
    center (given, or None for the middle) ends in exactly the state of
    one [zoom] by the per-axis products of the factors, whatever the
    corners and the stored matrix are. *)
Theorem zoom_composition (self : t) (f1 f2 : factor) (center : option vec2) :
  has_image self -> nonzero_size (size self) ->
  (zoom f1 center ;; zoom f2 center) self
  = zoom (PerAxis (fst (factor_pair f1) * fst (factor_pair f2))
                  (snd (factor_pair f1) * snd (factor_pair f2)))
         center self.
Proof. intros Hi Hs. apply zoom_zoom; assumption. Qed.

Lemma zoom_composition_witness :
  (zoom (Scalar 2) (Some (V2 3 1)) ;; zoom (PerAxis (1 / 4) 3) (Some (V2 3 1)))
    turned_view
  = zoom (PerAxis (fst (factor_pair (Scalar 2)) * fst (factor_pair (PerAxis (1 / 4) 3)))
                  (snd (factor_pair (Scalar 2)) * snd (factor_pair (PerAxis (1 / 4) 3))))
         (Some (V2 3 1)) turned_view.
Proof.
  apply (zoom_composition turned_view (Scalar 2) (PerAxis (1 / 4) 3) (Some (V2 3 1))).
  - unfold has_image; vm_compute; discriminate.
  - split; simpl; discriminate.
Defined.

(** X4 -- pans add up.  With an image loaded and no zero viewport
    dimension, [pan(d1)] followed by [pan(d2)] ends in exactly the state of
    [pan(d1 + d2)]. *)
Theorem pan_composition (self : t) (d1 d2 : vec2) :
  has_image self -> nonzero_size (size self) ->
  (pan d1 ;; pan d2) self = pan (vadd d1 d2) self.
Proof. intros Hi Hs. apply pan_pan; assumption. Qed.

Lemma pan_composition_witness :
  (pan (V2 5 (-3)) ;; pan (V2 (-1) 7)) turned_view
  = pan (vadd (V2 5 (-3)) (V2 (-1) 7)) turned_view.
Proof.
  apply (pan_composition turned_view (V2 5 (-3)) (V2 (-1) 7)).
  - unfold has_image; vm_compute; discriminate.
  - split; simpl; discriminate.
Defined.

(** X5 -- rotations add up.  With an image loaded, no zero viewport
    dimension and a current matrix, [rotate(a1, c)] followed by
    [rotate(a2, c)] about the same center ends in exactly the state of
    [rotate(a1 + a2, c)]. *)
Theorem rotation_additivity (self : t) (a1 a2 : R) (center : option vec2) :
  has_image self -> nonzero_size (size self) -> matrix_current self ->
  (rotate a1 center ;; rotate a2 center) self = rotate (a1 + a2) center self.
Proof. intros Hi Hs Hm. apply rotate_rotate; assumption. Qed.

Lemma rotation_additivity_witness :
  (rotate (PI / 3) (Some (V2 3 1)) ;; rotate (PI / 6) (Some (V2 3 1))) turned_view
  = rotate (PI / 3 + PI / 6) (Some (V2 3 1)) turned_view.
Proof.
  apply (rotation_additivity turned_view (PI / 3) (PI / 6) (Some (V2 3 1))).
  - unfold has_image; vm_compute; discriminate.
  - split; simpl; discriminate.
  - apply turned_view_is_view.
Defined.

(** X6 -- neutral calls.  With an image loaded, no zero viewport
    dimension and a current matrix, [pan((0, 0))], [zoom(1, c)] and
    [rotate(0, c)] return and leave the whole object as it was. *)
Theorem neutral_calls_are_identity (self : t) (center : option vec2) :
  has_image self -> nonzero_size (size self) -> matrix_current self ->
  pan (V2 0 0) self = (Ok tt, self) /\
  zoom (Scalar 1) center self = (Ok tt, self) /\
  rotate 0 center self = (Ok tt, self).
Proof. intros Hi Hs Hm. apply neutral_calls; assumption. Qed.

Lemma neutral_calls_are_identity_witness :
  pan (V2 0 0) turned_view = (Ok tt, turned_view) /\
  zoom (Scalar 1) None turned_view = (Ok tt, turned_view) /\
  rotate 0 None turned_view = (Ok tt, turned_view).
Proof.
  apply (neutral_calls_are_identity turned_view None).
  - unfold has_image; vm_compute; discriminate.
  - split; simpl; discriminate.
  - apply turned_view_is_view.
Defined.

(** ** Resize *)

Section Resizing.

Variable self : t.
Hypothesis image_ok : has_image self.
Hypothesis size_ok : nonzero_size (size self).
Variable new_size : Z * Z.
Hypothesis new_ok : nonzero_size new_size.

(** Half the growth of the viewport, per axis. *)
Let shift : vec2 :=
  V2 ((IZR (fst new_size) - IZR (fst (size self))) / 2)
     ((IZR (snd new_size) - IZR (snd (size self))) / 2).

Lemma resize_runs :
  let c := affine_multiplication_coords (affine_transform_matrix self)
             (coords_sub (get_coords_from_size (float_pair new_size)) shift) in
  exists M,
    affine_transform (get_coords_from_size (float_pair new_size)) c = Ok M /\
    resize new_size self
    = (Ok tt, Self (core_image self) M c new_size (background_color self)).
Proof.
  intros c.
  destruct (nonzero_size_bool _ size_ok) as (_ & _ & _ & B00).
  destruct size_ok as [Hsw Hsh].
  destruct (nonzero_size_R _ (conj Hsw Hsh)) as [Rsw Rsh].
  set (fx := IZR (fst new_size) / IZR (fst (size self))).
  set (fy := IZR (snd new_size) / IZR (snd (size self))).
  destruct (zoom_runs self image_ok (conj Hsw Hsh) (PerAxis fx fy) None)
    as (M1 & _ & Hz). simpl in Hz.
  set (c1 := affine_multiplication_coords _ _) in Hz.
  assert (Ec : c1 = c).
  { unfold c1, c. f_equal.
    apply coords_ext; unfold shift, fx, fy; simpl; unfold vsub, dot_vec; simpl;
      f_equal; field; assumption. }
  set (self1 := Self (core_image self) M1 c1 (size self) (background_color self))
    in Hz.
  destruct (update_runs (set_size new_size self1) new_ok) as (M & HM & HU).
  exists M. split; [rewrite <- Ec; exact HM|].
  unfold resize. unfold bind at 1. cbv beta.
  rewrite (loaded self image_ok), B00. cbn [negb andb].
  rewrite (py_div_ok _ _ Hsw), (py_div_ok _ _ Hsh).
  do 2 method_step. fold fx fy. rewrite Hz. method_step.
  change (core_image (set_size new_size self1)) with (core_image self).
  rewrite (loaded self image_ok). cbn [negb]. rewrite HU, <- Ec. reflexivity.
Qed.

(** After the resize a viewport pixel [p] shows what the pixel
    [p - shift] showed before. *)
Lemma resize_matrix_after (self' : t) :
  resize new_size self = (Ok tt, self') ->
  frame_kept self (set_size (size self) self') /\
  size self' = new_size /\
  matrix_current self' /\
  corners self'
  = affine_multiplication_coords (affine_transform_matrix self)
      (coords_sub (get_coords_from_size (float_pair new_size)) shift) /\
  forall p, affine_multiplication (affine_transform_matrix self') p
            = affine_multiplication (affine_transform_matrix self) (vsub p shift).
Proof.
  intros Hr. destruct resize_runs as (M & HM & Hr'). rewrite Hr' in Hr.
  injection Hr as <-. simpl.
  split; [unfold frame_kept; simpl; auto|]. split; [reflexivity|].
  split; [exact HM|]. split; [reflexivity|]. intros p.
  rewrite (derived_after new_size new_ok (affine_transform_matrix self) M
             (M2 1 0 0 1) (vneg shift)
             (coords_sub (get_coords_from_size (float_pair new_size)) shift));
    try exact HM;
    try (simpl; rewrite dot_vec_identity; apply vsub_vadd_vneg).
  rewrite dot_vec_identity, <- vsub_vadd_vneg. reflexivity.
Qed.

End Resizing.

Lemma resize_back (self : t) (new_size : Z * Z) :
  has_image self -> nonzero_size (size self) -> nonzero_size new_size ->
  matrix_current self ->
  (resize new_size ;; resize (size self)) self = (Ok tt, self).
Proof.
  intros Hi Hs Hn Hm.
  destruct (resize_runs self Hi Hs new_size Hn) as (M1 & HM1 & Hr1).
  pose proof (resize_matrix_after self Hi Hs new_size Hn _ Hr1)
    as (_ & _ & _ & _ & E1).
  unfold bind. rewrite Hr1.
  set (self1 := Self _ M1 _ _ _) in *.
  destruct (resize_runs self1 Hi Hn (size self) Hs) as (M2' & HM2 & Hr2).
  rewrite Hr2. f_equal.
  change (core_image self1) with (core_image self).
  change (background_color self1) with (background_color self).
  apply state_eta; [exact HM2 | exact Hm |].
  rewrite <- (affine_transform_maps _ _ _ Hm).
  change (affine_transform_matrix self1) with M1 in *.
  change (size self1) with new_size.
  unfold affine_multiplication_coords. simpl. rewrite !E1.
  apply coords_ext; simpl; f_equal; unfold vsub; simpl; f_equal; field.
Qed.

(** X7 -- resize keeps the scale and the middle.  With an image loaded and
    no zero dimension in the old and the new viewport size, [resize]
    returns, stores the new size and a current matrix, leaves the linear
    part of the matrix as it was (no magnification, no distortion), and
    the middle of the new viewport shows the image point the middle of the
    old viewport showed. *)
Theorem resize_keeps_scale_and_middle (self : t) (new_size : Z * Z) :
  has_image self -> nonzero_size (size self) -> nonzero_size new_size ->
  exists self',
    resize new_size self = (Ok tt, self') /\
    size self' = new_size /\
    matrix_current self' /\
    inner_of (affine_transform_matrix self')
    = inner_of (affine_transform_matrix self) /\
    affine_multiplication (affine_transform_matrix self')
      (V2 (IZR (fst new_size) / 2) (IZR (snd new_size) / 2))
    = affine_multiplication (affine_transform_matrix self)
        (V2 (IZR (fst (size self)) / 2) (IZR (snd (size self)) / 2)).
Proof.
  intros Hi Hs Hn.
  destruct (resize_runs self Hi Hs new_size Hn) as (M & HM & Hr).
  pose proof (resize_matrix_after self Hi Hs new_size Hn _ Hr)
    as (_ & Hsz & Hcur & _ & E).
  eexists. split; [exact Hr|]. split; [exact Hsz|]. split; [exact Hcur|].
  cbn [affine_transform_matrix] in *. split.
  - pose proof (E (V2 0 0)) as E0. pose proof (E (V2 1 0)) as E1.
    pose proof (E (V2 0 1)) as E2.
    destruct M as [a b c d e f g h i].
    destruct (affine_transform_matrix self) as [a' b' c' d' e' f' g' h' i'].
    unfold affine_multiplication, vsub, inner_of in *; simpl in *.
    injection E0 as E0x E0y. injection E1 as E1x E1y. injection E2 as E2x E2y.
    f_equal; lra.
  - rewrite E. f_equal. unfold vsub; simpl. f_equal; field.
Qed.

Lemma resize_keeps_scale_and_middle_witness :
  exists self',
    resize (8, 6)%Z turned_view = (Ok tt, self') /\
    size self' = (8, 6)%Z /\
    matrix_current self' /\
    inner_of (affine_transform_matrix self')
    = inner_of (affine_transform_matrix turned_view) /\
    affine_multiplication (affine_transform_matrix self')
      (V2 (IZR (fst (8, 6)%Z) / 2) (IZR (snd (8, 6)%Z) / 2))
    = affine_multiplication (affine_transform_matrix turned_view)
        (V2 (IZR (fst (size turned_view)) / 2) (IZR (snd (size turned_view)) / 2)).
Proof.
  apply (resize_keeps_scale_and_middle turned_view (8, 6)%Z).
  - unfold has_image; vm_compute; discriminate.
  - split; simpl; discriminate.
  - split; simpl; discriminate.
Defined.

(** X8 -- resizing there and back.  With an image loaded, a current
    matrix and no zero dimension in either size, [resize(n)] followed by
    [resize] to the old size returns the object to exactly what it
    was. *)
Theorem resize_round_trip (self : t) (new_size : Z * Z) :
  has_image self -> nonzero_size (size self) -> nonzero_size new_size ->
  matrix_current self ->
  (resize new_size ;; resize (size self)) self = (Ok tt, self).
Proof. intros Hi Hs Hn Hm. apply resize_back; assumption. Qed.

Lemma resize_round_trip_witness :
  (resize (8, 6)%Z ;; resize (size turned_view)) turned_view
  = (Ok tt, turned_view).
Proof.
  apply (resize_round_trip turned_view (8, 6)%Z).
  - unfold has_image; vm_compute; discriminate.
  - split; simpl; discriminate.
  - split; simpl; discriminate.
  - apply turned_view_is_view.
Defined.

(** X9 -- resize with exactly one zero dimension stored.  With an image
    loaded and a stored size (0, H) or (W, 0) that is not (0, 0), every
    [resize] raises ZeroDivisionError and changes nothing: the guard only
    excludes (0, 0), so the division by the zero dimension is reached,
    and the size can never be set again. *)
Theorem resize_stuck_on_one_zero_dimension (self : t) (new_size : Z * Z) :
  has_image self ->
  zero_in_pair (size self) = true -> is_0_0 (size self) = false ->
  resize new_size self = (Raise ZeroDivisionError, self).
Proof.
  intros Hi Hz H00. unfold resize. unfold bind at 1. cbv beta.
  rewrite (loaded self Hi), H00. cbn [negb andb].
  unfold zero_in_pair in Hz. unfold py_div.
  destruct (fst (size self) =? 0)%Z eqn:Ew.
  - reflexivity.
  - cbn [orb] in Hz. rewrite Hz. reflexivity.
Qed.

Lemma resize_stuck_on_one_zero_dimension_witness :
  resize (800, 600)%Z (set_size (0, 5)%Z loaded_unsized)
  = (Raise ZeroDivisionError, set_size (0, 5)%Z loaded_unsized).
Proof.
  apply (resize_stuck_on_one_zero_dimension (set_size (0, 5)%Z loaded_unsized)
           (800, 600)%Z).
  - unfold has_image; vm_compute; discriminate.
  - reflexivity.
  - reflexivity.
Defined.

(** X10 -- the first resize after an early load.  With an image loaded
    while the viewport was still (0, 0), [resize] to a size without a zero
    dimension returns, stores the size and a current matrix, and leaves
    the corners untouched: the image is not fitted until [reset_corners]
    is called. *)
Theorem resize_from_0_0 (self : t) (new_size : Z * Z) :
  has_image self -> size self = (0, 0)%Z -> nonzero_size new_size ->
  exists self',
    resize new_size self = (Ok tt, self') /\
    corners self' = corners self /\
    size self' = new_size /\
    core_image self' = core_image self /\
    matrix_current self'.
Proof.
  intros Hi H0 Hn.
  destruct (update_runs (set_size new_size self) Hn) as (M & HM & HU).
  exists (set_affine_transform_matrix M (set_size new_size self)).
  split; [|simpl; auto].
  unfold resize. unfold bind at 1. cbv beta.
  rewrite (loaded self Hi), H0. cbn [is_0_0 fst snd Z.eqb negb andb].
  unfold ret at 1. cbv iota beta. method_step.
  change (core_image (set_size new_size self)) with (core_image self).
  rewrite (loaded self Hi). cbn [negb]. exact HU.
Qed.

Lemma resize_from_0_0_witness :
  exists self',
    resize (800, 600)%Z loaded_unsized = (Ok tt, self') /\
    corners self' = corners loaded_unsized /\
    size self' = (800, 600)%Z /\
    core_image self' = core_image loaded_unsized /\
    matrix_current self'.
Proof.
  apply (resize_from_0_0 loaded_unsized (800, 600)%Z).
  - unfold has_image; vm_compute; discriminate.
  - reflexivity.
  - split; simpl; discriminate.
Defined.

(** ** More on the solver *)

Lemma affine_inverse_right (M Mi : mat3) (p : vec2) :
  affine_inverse M = Ok Mi ->
  affine_multiplication M (affine_multiplication Mi p) = p.
Proof.
  unfold affine_inverse, linalg_inv.
  destruct (Req_dec_T (det2 (inner_of M)) 0) as [|Hd]; [discriminate|].
  simpl. intros [= <-].
  destruct M as [a b c d e f g h i], p as [x y].
  unfold affine_multiplication, assemble, dot_vec, vneg, translation_of,
    inner_of, det2 in *; simpl in *.
  f_equal; field; exact Hd.
Qed.

(** The images of a non-collinear basis determine the two upper rows of
    the matrix. *)
Lemma affine_transform_of_images (N : mat3) (b : coords) :
  ~ collinear b ->
  affine_transform b (affine_multiplication_coords N b)
  = Ok (assemble (inner_of N) (translation_of N)).
Proof.
  intros Hc. rewrite collinear_det in Hc.
  unfold affine_transform. rewrite (linalg_inv_regular _ Hc). cbn [rbind].
  destruct N as [a b' c d e f g h i], b as [[x0 y0] [x1 y1] [x2 y2]].
  unfold assemble, dot_mat, dot_vec, vsub, affine_multiplication_coords,
    affine_multiplication, inner_of, translation_of, delta_coords, det2 in *;
    simpl in *.
  f_equal; f_equal; field; exact Hc.
Qed.

Lemma affine_inverse_shape (M Mi : mat3) :
  affine_inverse M = Ok Mi ->
  Mi = assemble (inner_of Mi) (translation_of Mi).
Proof.
  unfold affine_inverse. destruct (linalg_inv (inner_of M)); simpl;
    [|discriminate].
  intros [= <-]. reflexivity.
Qed.

Lemma affine_transform_shape (b1 b2 : coords) (M : mat3) :
  affine_transform b1 b2 = Ok M ->
  M = assemble (inner_of M) (translation_of M).
Proof.
  unfold affine_transform. destruct (linalg_inv (delta_coords b1)); simpl;
    [|discriminate].
  intros [= <-]. reflexivity.
Qed.

Lemma coords_image_inverse (M Mi : mat3) (b : coords) :
  affine_inverse M = Ok Mi ->
  affine_multiplication_coords Mi (affine_multiplication_coords M b) = b.
Proof.
  intros Hi. destruct b as [p0 p1 p2].
  unfold affine_multiplication_coords; simpl.
  rewrite !(affine_inverse_undoes M Mi _ Hi). reflexivity.
Qed.

(** X11 -- the solver recovers a matrix from the images of a basis.  For
    a non-collinear basis and any matrix N, [affine_transform] applied to
    the basis and its image under N returns the two upper rows of N over
    the row 0 0 1: the matrix it returns is the only affine map that
    sends the first basis onto the second. *)
Theorem solver_recovers_matrix (N : mat3) (basis : coords) :
  ~ collinear basis ->
  affine_transform basis (affine_multiplication_coords N basis)
  = Ok (assemble (inner_of N) (translation_of N)).
Proof. apply affine_transform_of_images. Qed.

Lemma solver_recovers_matrix_witness :
  affine_transform (C3 (V2 (-2) 0) (V2 (-1) 0) (V2 (-2) 1))
    (affine_multiplication_coords (M3 0 (-1) 1 1 0 3 7 8 9)
       (C3 (V2 (-2) 0) (V2 (-1) 0) (V2 (-2) 1)))
  = Ok (assemble (inner_of (M3 0 (-1) 1 1 0 3 7 8 9))
                 (translation_of (M3 0 (-1) 1 1 0 3 7 8 9))).
Proof.
  apply (solver_recovers_matrix (M3 0 (-1) 1 1 0 3 7 8 9)
           (C3 (V2 (-2) 0) (V2 (-1) 0) (V2 (-2) 1))).
  unfold collinear; simpl; lra.
Defined.

(** X12 -- inverting is solving the other way round.  For two
    non-collinear bases, the inverse of the matrix from basis1 to basis2
    exists and is, entry for entry, the matrix [affine_transform] returns
    from basis2 to basis1. *)
Theorem inverse_is_reverse_solve (basis1 basis2 : coords) :
  ~ collinear basis1 -> ~ collinear basis2 ->
  exists M Mi,
    affine_transform basis1 basis2 = Ok M /\
    affine_inverse M = Ok Mi /\
    affine_transform basis2 basis1 = Ok Mi.
Proof.
  intros H1 H2.
  destruct (affine_transform_succeeds basis1 basis2 H1) as (inv1 & _ & HM).
  set (M := assemble _ _) in HM.
  assert (Hdet : det2 (inner_of M) <> 0).
  { intros Hz. pose proof (affine_transform_det _ _ _ HM) as E.
    rewrite Hz, Rmult_0_l in E. apply H2, collinear_det. symmetry; exact E. }
  destruct (affine_inverse_succeeds M Hdet) as [Mi HMi].
  exists M, Mi. split; [exact HM|]. split; [exact HMi|].
  rewrite (affine_inverse_shape _ _ HMi).
  rewrite <- (affine_transform_of_images Mi basis2 H2). f_equal.
  rewrite <- (affine_transform_maps _ _ _ HM).
  symmetry. apply coords_image_inverse. exact HMi.
Qed.

Lemma inverse_is_reverse_solve_witness :
  exists M Mi,
    affine_transform (C3 (V2 (-2) 0) (V2 (-1) 0) (V2 (-2) 1))
                     (C3 (V2 1 1) (V2 1 2) (V2 0 1)) = Ok M /\
    affine_inverse M = Ok Mi /\
    affine_transform (C3 (V2 1 1) (V2 1 2) (V2 0 1))
                     (C3 (V2 (-2) 0) (V2 (-1) 0) (V2 (-2) 1)) = Ok Mi.
Proof.
  apply (inverse_is_reverse_solve
           (C3 (V2 (-2) 0) (V2 (-1) 0) (V2 (-2) 1))
           (C3 (V2 1 1) (V2 1 2) (V2 0 1)));
    unfold collinear; simpl; lra.
Defined.

(** X13 -- solved matrices compose.  For bases basis1, basis2 (both
    non-collinear) and any basis3, applying the matrix from basis1 to
    basis2 and then the matrix from basis2 to basis3 is applying the
    matrix from basis1 to basis3. *)
Theorem solved_matrices_compose (basis1 basis2 basis3 : coords) (p : vec2) :
  ~ collinear basis1 -> ~ collinear basis2 ->
  exists M12 M23 M13,
    affine_transform basis1 basis2 = Ok M12 /\
    affine_transform basis2 basis3 = Ok M23 /\
    affine_transform basis1 basis3 = Ok M13 /\
    affine_multiplication M23 (affine_multiplication M12 p)
    = affine_multiplication M13 p.
Proof.
  intros H1 H2.
  destruct (affine_transform_succeeds basis1 basis2 H1) as (i1 & _ & HM12).
  destruct (affine_transform_succeeds basis2 basis3 H2) as (i2 & _ & HM23).
  destruct (affine_transform_succeeds basis1 basis3 H1) as (i3 & _ & HM13).
  set (M12 := assemble _ _) in HM12. set (M23 := assemble _ _) in HM23.
  set (M13 := assemble _ _) in HM13.
  exists M12, M23, M13. repeat (split; [assumption|]).
  (* the product of the two matrices, written out *)
  set (N := M3 (m00 M23 * m00 M12 + m01 M23 * m10 M12)
               (m00 M23 * m01 M12 + m01 M23 * m11 M12)
               (m00 M23 * m02 M12 + m01 M23 * m12 M12 + m02 M23)
               (m10 M23 * m00 M12 + m11 M23 * m10 M12)
               (m10 M23 * m01 M12 + m11 M23 * m11 M12)
               (m10 M23 * m02 M12 + m11 M23 * m12 M12 + m12 M23)
               0 0 1).
  assert (EN : forall q, affine_multiplication N q
                         = affine_multiplication M23 (affine_multiplication M12 q)).
  { intros [x y]. unfold affine_multiplication, N; simpl. f_equal; ring. }
  assert (Hb : affine_multiplication_coords N basis1 = basis3).
  { rewrite <- (affine_transform_maps _ _ _ HM23).
    rewrite <- (affine_transform_maps _ _ _ HM12).
    unfold affine_multiplication_coords; simpl. rewrite !EN. reflexivity. }
  pose proof (affine_transform_of_images N basis1 H1) as E.
  rewrite Hb, HM13 in E.
  assert (E' : M13 = assemble (inner_of N) (translation_of N)) by congruence.
  rewrite <- EN, E'. destruct p as [x y]. reflexivity.
Qed.

Lemma solved_matrices_compose_witness :
  exists M12 M23 M13,
    affine_transform (C3 (V2 (-2) 0) (V2 (-1) 0) (V2 (-2) 1))
                     (C3 (V2 1 1) (V2 1 2) (V2 0 1)) = Ok M12 /\
    affine_transform (C3 (V2 1 1) (V2 1 2) (V2 0 1))
                     (C3 (V2 0 0) (V2 4 0) (V2 0 2)) = Ok M23 /\
    affine_transform (C3 (V2 (-2) 0) (V2 (-1) 0) (V2 (-2) 1))
                     (C3 (V2 0 0) (V2 4 0) (V2 0 2)) = Ok M13 /\
    affine_multiplication M23 (affine_multiplication M12 (V2 (-1) 1))
    = affine_multiplication M13 (V2 (-1) 1).
Proof.
  apply (solved_matrices_compose
           (C3 (V2 (-2) 0) (V2 (-1) 0) (V2 (-2) 1))
           (C3 (V2 1 1) (V2 1 2) (V2 0 1))
           (C3 (V2 0 0) (V2 4 0) (V2 0 2)) (V2 (-1) 1));
    unfold collinear; simpl; lra.
Defined.

(** X14 -- [affine_inverse] is a two-sided inverse and undoes itself.  When
    [affine_inverse M] returns Mi, applying Mi after M and M after Mi both
    give the point back, and [affine_inverse Mi] returns the two upper
    rows of M over the row 0 0 1. *)
Theorem affine_inverse_involutive (M Mi : mat3) (p : vec2) :
  affine_inverse M = Ok Mi ->
  affine_multiplication Mi (affine_multiplication M p) = p /\
  affine_multiplication M (affine_multiplication Mi p) = p /\
  affine_inverse Mi = Ok (assemble (inner_of M) (translation_of M)).
Proof.
  intros Hi. split; [apply affine_inverse_undoes, Hi|].
  split; [apply affine_inverse_right, Hi|].
  revert Hi. unfold affine_inverse, linalg_inv.
  destruct (Req_dec_T (det2 (inner_of M)) 0) as [|Hd]; [discriminate|].
  simpl. intros [= <-].
  destruct M as [a b c d e f g h i].
  unfold inner_of, translation_of, assemble, det2, dot_vec, vneg in *;
    simpl in *.
  match goal with |- context [Req_dec_T ?x 0] =>
    destruct (Req_dec_T x 0) as [Hz | Hn] end.
  - exfalso. apply Hd.
    assert (E : (e * a - b * d) * / (a * e - b * d) = 1) by (field; exact Hd).
    assert (E' : / (a * e - b * d) = 0).
    { replace (/ (a * e - b * d))
        with (e / (a * e - b * d) * (a / (a * e - b * d))
              - - b / (a * e - b * d) * (- d / (a * e - b * d)))
        by (field; exact Hd).
      exact Hz. }
    rewrite E' in E. lra.
  - simpl. f_equal; f_equal; field; exact Hd.
Qed.

Lemma affine_inverse_involutive_witness :
  affine_multiplication (M3 0 2 (-3) (-1 / 2) 0 4 0 0 1)
    (affine_multiplication (M3 0 (-2) 8 (1 / 2) 0 (3 / 2) 0 0 1) (V2 3 1))
  = V2 3 1 /\
  affine_multiplication (M3 0 (-2) 8 (1 / 2) 0 (3 / 2) 0 0 1)
    (affine_multiplication (M3 0 2 (-3) (-1 / 2) 0 4 0 0 1) (V2 3 1))
  = V2 3 1 /\
  affine_inverse (M3 0 2 (-3) (-1 / 2) 0 4 0 0 1)
  = Ok (assemble (inner_of (M3 0 (-2) 8 (1 / 2) 0 (3 / 2) 0 0 1))
                 (translation_of (M3 0 (-2) 8 (1 / 2) 0 (3 / 2) 0 0 1))).
Proof.
  apply (affine_inverse_involutive (M3 0 (-2) 8 (1 / 2) 0 (3 / 2) 0 0 1)
           (M3 0 2 (-3) (-1 / 2) 0 4 0 0 1) (V2 3 1)).
  unfold affine_inverse.
  rewrite linalg_inv_regular by (unfold det2, inner_of; simpl; lra).
  unfold rbind, assemble, inner_of, translation_of, dot_vec, vneg, det2; simpl.
  f_equal; f_equal; field.
Defined.

(** ** Rendering *)

Lemma set_current_matrix (self : t) (M : mat3) :
  matrix_current self ->
  affine_transform (get_coords_from_size (float_pair (size self)))
                   (corners self) = Ok M ->
  set_affine_transform_matrix M self = self.
Proof.
  unfold matrix_current. intros Hc HM. rewrite Hc in HM. injection HM as <-.
  destruct self; reflexivity.
Qed.

(** X15 -- what [get_image] hands to OpenCV.  On a view (image loaded, no
    zero viewport dimension, corners not collinear, matrix current)
    [get_image] returns the value of [cv2.warpAffine] on the stored
    raster, the viewport size, the background colour and the two upper
    rows of the inverse Mi of the stored matrix; the object is left as it
    was; Mi sends the three corners onto (0, 0), (W, 0), (0, H), and Mi
    and the stored matrix undo each other on every point. *)
Theorem get_image_renders_view (self : t) :
  view self ->
  exists Mi,
    affine_inverse (affine_transform_matrix self) = Ok Mi /\
    get_image self
    = (Ok (WarpAffine (core_image self)
             (M23 (m00 Mi) (m01 Mi) (m02 Mi) (m10 Mi) (m11 Mi) (m12 Mi))
             (size self) (background_color self)),
       self) /\
    affine_multiplication_coords Mi (corners self)
    = get_coords_from_size (float_pair (size self)) /\
    forall p,
      affine_multiplication Mi
        (affine_multiplication (affine_transform_matrix self) p) = p /\
      affine_multiplication (affine_transform_matrix self)
        (affine_multiplication Mi p) = p.
Proof.
  intros [Hi Hs Hc Hm].
  destruct (get_image_sized self Hi Hs) as (M & HM & _ & Hg).
  destruct (Hg Hc) as (Mi & HMi & Eg).
  pose proof (set_current_matrix self M Hm HM) as Es.
  assert (EM : M = affine_transform_matrix self).
  { unfold matrix_current in Hm. congruence. }
  subst M. exists Mi. split; [exact HMi|].
  split; [rewrite Eg, Es; reflexivity|].
  split.
  - rewrite <- (affine_transform_maps _ _ _ Hm) at 1.
    apply coords_image_inverse. exact HMi.
  - intros p. split;
      [apply affine_inverse_undoes | apply affine_inverse_right]; exact HMi.
Qed.

Lemma get_image_renders_view_witness :
  exists Mi,
    affine_inverse (affine_transform_matrix turned_view) = Ok Mi /\
    get_image turned_view
    = (Ok (WarpAffine (core_image turned_view)
             (M23 (m00 Mi) (m01 Mi) (m02 Mi) (m10 Mi) (m11 Mi) (m12 Mi))
             (size turned_view) (background_color turned_view)),
       turned_view) /\
    affine_multiplication_coords Mi (corners turned_view)
    = get_coords_from_size (float_pair (size turned_view)) /\
    forall p,
      affine_multiplication Mi
        (affine_multiplication (affine_transform_matrix turned_view) p) = p /\
      affine_multiplication (affine_transform_matrix turned_view)
        (affine_multiplication Mi p) = p.
Proof.
  apply (get_image_renders_view turned_view). apply turned_view_is_view.
Defined.

(** X16 -- the except branch of [get_image].  With an image loaded, no
    zero viewport dimension and collinear corners (as after loading an
    image before the viewport had a size), [get_image] returns the empty
    array [np.ndarray((0,))] and does not raise; corners, size, raster
    and background colour stay as they were. *)
Theorem get_image_collinear_corners (self : t) :
  has_image self -> nonzero_size (size self) -> collinear (corners self) ->
  exists self',
    get_image self = (Ok (Array empty_ndarray), self') /\
    zero_size (Array empty_ndarray) /\
    matrix_current self' /\
    corners self' = corners self /\ frame_kept self self'.
Proof.
  intros Hi Hs Hc.
  destruct (get_image_sized self Hi Hs) as (M & HM & Hg & _).
  exists (set_affine_transform_matrix M self).
  split; [exact (Hg Hc)|].
  split; [exists empty_ndarray; split; reflexivity|].
  split; [exact HM|]. split; [reflexivity|]. unfold frame_kept; simpl; auto.
Qed.

Lemma get_image_collinear_corners_witness :
  exists self',
    get_image (set_size (800, 600)%Z loaded_unsized)
    = (Ok (Array empty_ndarray), self') /\
    zero_size (Array empty_ndarray) /\
    matrix_current self' /\
    corners self' = corners (set_size (800, 600)%Z loaded_unsized) /\
    frame_kept (set_size (800, 600)%Z loaded_unsized) self'.
Proof.
  apply (get_image_collinear_corners (set_size (800, 600)%Z loaded_unsized)).
  - unfold has_image; vm_compute; discriminate.
  - split; simpl; discriminate.
  - unfold collinear; simpl; lra.
Defined.

(** ** Exceptions and the stored matrix *)

Lemma zero_in_pair_false (s : Z * Z) :
  zero_in_pair s = false -> nonzero_size s.
Proof.
  unfold zero_in_pair, nonzero_size. intros E.
  apply orb_false_iff in E. destruct E as [E1 E2].
  apply Z.eqb_neq in E1, E2. auto.
Qed.

(** X17 -- when the mutators raise.  [pan], [zoom] and [rotate] raise
    exactly when an image is loaded while a viewport dimension is zero,
    and then the exception is LinAlgError; in every other state the three
    return None. *)
Theorem mutators_raise_iff (self : t) (delta : vec2)
    (zoom_factor : factor) (rad_angle : R) (center : option vec2) :
  (has_image self /\ zero_in_pair (size self) = true ->
     fst (pan delta self) = Raise LinAlgError /\
     fst (zoom zoom_factor center self) = Raise LinAlgError /\
     fst (rotate rad_angle center self) = Raise LinAlgError) /\
  (~ (has_image self /\ zero_in_pair (size self) = true) ->
     fst (pan delta self) = Ok tt /\
     fst (zoom zoom_factor center self) = Ok tt /\
     fst (rotate rad_angle center self) = Ok tt).
Proof.
  split.
  - intros [Hi Hz].
    exact (mutators_zero_viewport self Hi Hz delta zoom_factor rad_angle center).
  - intros Hn.
    destruct (Z.eq_dec (nd_size (core_image self)) 0) as [He | Hi].
    + apply Z.eqb_eq in He. unfold pan, zoom, rotate.
      rewrite He. repeat split.
    + assert (Hs : nonzero_size (size self)).
      { apply zero_in_pair_false. destruct (zero_in_pair (size self)); auto.
        exfalso. apply Hn. split; [exact Hi | reflexivity]. }
      destruct (pan_runs self Hi Hs delta) as (? & _ & ->).
      destruct (zoom_runs self Hi Hs zoom_factor center) as (? & _ & ->).
      destruct (rotate_runs self Hi Hs rad_angle center) as (? & _ & ->).
      repeat split.
Qed.

(** An image loaded before the viewport has a size: the three raise.  The
    turned view and the engine without an image: the three return. *)
Lemma mutators_raise_iff_witness :
  (fst (pan (V2 1 2) loaded_unsized) = Raise LinAlgError /\
   fst (zoom (Scalar 2) None loaded_unsized) = Raise LinAlgError /\
   fst (rotate 1 None loaded_unsized) = Raise LinAlgError) /\
  (fst (pan (V2 1 2) turned_view) = Ok tt /\
   fst (zoom (Scalar 2) None turned_view) = Ok tt /\
   fst (rotate 1 None turned_view) = Ok tt) /\
  (fst (pan (V2 1 2) blank) = Ok tt /\
   fst (zoom (Scalar 2) None blank) = Ok tt /\
   fst (rotate 1 None blank) = Ok tt).
Proof.
  split; [|split].
  - apply (proj1 (mutators_raise_iff loaded_unsized (V2 1 2) (Scalar 2) 1 None)).
    split; [unfold has_image; vm_compute; discriminate | reflexivity].
  - apply (proj2 (mutators_raise_iff turned_view (V2 1 2) (Scalar 2) 1 None)).
    intros [_ Hz]. vm_compute in Hz. discriminate.
  - apply (proj2 (mutators_raise_iff blank (V2 1 2) (Scalar 2) 1 None)).
    intros [Hi _]. apply Hi. reflexivity.
Defined.

Lemma update_current (s s' : t) :
  update_affine_transform_matrix s = (Ok tt, s') ->
  matrix_current s' /\ frame_kept s s' /\ corners s' = corners s.
Proof.
  unfold update_affine_transform_matrix, bind, lift, assign.
  destruct (affine_transform _ (corners s)) as [M | e] eqn:E; [|discriminate].
  intros [= <-]. split; [exact E|]. unfold frame_kept; simpl; auto.
Qed.

Lemma corners_update_current (c : coords) (s s' : t) :
  (assign (set_corners c) ;; update_affine_transform_matrix) s = (Ok tt, s') ->
  matrix_current s'.
Proof. rewrite bind_assign. intros E. apply (update_current _ _ E). Qed.

(** X18 -- the stored matrix is never stale after a call that returns.
    With an image loaded, whenever [pan], [zoom], [rotate], [resize] or
    [get_image] returns, the matrix it leaves in the object is the one
    derived from the corners and the size it leaves there; the same for
    [reset_corners] when no viewport dimension is zero. *)
Theorem returned_matrix_is_current (self self' : t) (delta : vec2)
    (zoom_factor : factor) (rad_angle : R) (center : option vec2)
    (new_size : Z * Z) (img : image) :
  has_image self ->
  (pan delta self = (Ok tt, self') -> matrix_current self') /\
  (zoom zoom_factor center self = (Ok tt, self') -> matrix_current self') /\
  (rotate rad_angle center self = (Ok tt, self') -> matrix_current self') /\
  (resize new_size self = (Ok tt, self') -> matrix_current self') /\
  (get_image self = (Ok img, self') -> matrix_current self') /\
  (nonzero_size (size self) ->
   reset_corners self = (Ok tt, self') -> matrix_current self').
Proof.
  intros Hi. pose proof (loaded self Hi) as Hl.
  split; [|split; [|split; [|split; [|split]]]].
  - unfold pan. rewrite Hl. apply corners_update_current.
  - unfold zoom. rewrite Hl. apply corners_update_current.
  - unfold rotate. rewrite Hl. apply corners_update_current.
  - unfold resize. unfold bind at 1. cbv beta. rewrite Hl. cbn [negb andb].
    assert (Hlast : forall s1, core_image s1 = core_image self ->
              (assign (set_size new_size) ;;
               (fun self0 =>
                  if negb (nd_size (core_image self0) =? 0)%Z
                  then update_affine_transform_matrix self0
                  else ret tt self0)) s1 = (Ok tt, self') ->
              matrix_current self').
    { intros s1 E1. rewrite bind_assign. cbv beta.
      change (core_image (set_size new_size s1)) with (core_image s1).
      rewrite E1, Hl. cbn [negb]. intros E. apply (update_current _ _ E). }
    destruct (negb (is_0_0 (size self))).
    + unfold bind at 1, lift at 1.
      destruct (py_div (fst new_size) (fst (size self))) as [fx | e];
        [|discriminate].
      unfold bind at 1, lift at 1.
      destruct (py_div (snd new_size) (snd (size self))) as [fy | e];
        [|discriminate].
      pose proof (corners_update_frame
                    (affine_multiplication_coords (affine_transform_matrix self)
                       (coords_sub
                          (dot_coords (M2 fx 0 0 fy)
                             (get_coords_from_size (float_pair (size self))))
                          (vsub (dot_vec (M2 fx 0 0 fy)
                                   (center_or_middle None (size self)))
                                (center_or_middle None (size self)))))
                    self) as (F & _).
      unfold zoom. rewrite Hl. cbv zeta. cbn [factor_pair fst snd].
      destruct ((assign _ ;; update_affine_transform_matrix) self)
        as [[[] | e] s1]; [|discriminate].
      apply Hlast. exact F.
    + unfold ret at 1. apply Hlast. reflexivity.
  - unfold get_image. rewrite Hl. unfold bind at 1.
    destruct (update_affine_transform_matrix self) as [[[] | e] s1] eqn:EU;
      [|discriminate].
    destruct (update_current _ _ EU) as (Hc & _ & _).
    unfold try_except_LinAlgError, bind, lift, ret.
    destruct (affine_inverse (affine_transform_matrix s1)) as [Mi | []];
      intros [= _ <-]; exact Hc.
  - intros Hs E.
    destruct (shape (core_image self)) as [| h [| w rest]] eqn:Hshape.
    + pose proof (reset_view self) as R. revert E. unfold reset_corners.
      rewrite (proj1 (proj2 (proj2 (nonzero_size_bool _ Hs)))), Hl, Hshape.
      simpl. discriminate.
    + assert (Hh : (0 =? h)%Z = false).
      { apply Z.eqb_neq. intros <-. apply Hi. unfold nd_size.
        rewrite Hshape. reflexivity. }
      revert E. unfold reset_corners.
      rewrite (proj1 (proj2 (proj2 (nonzero_size_bool _ Hs)))), Hl, Hshape.
      unfold zero_in. cbn [firstn existsb orb]. rewrite Hh. cbn [orb]. cbv zeta.
      change (index [h] 0) with (Ok h). method_step.
      change (index [h] 1) with (@Raise Z IndexError).
      unfold bind, lift. discriminate.
    + destruct (reset_corners_runs self h w rest Hi Hs Hshape)
        as (wd & ht & o & M & _ & _ & HM & Hr & _).
      rewrite Hr in E. injection E as <-. exact HM.
Qed.

Lemma returned_matrix_is_current_witness :
  (pan (V2 0 0) turned_view = (Ok tt, turned_view) -> matrix_current turned_view) /\
  (zoom (Scalar 1) None turned_view = (Ok tt, turned_view) ->
   matrix_current turned_view) /\
  (rotate 0 None turned_view = (Ok tt, turned_view) ->
   matrix_current turned_view) /\
  (resize (4, 2)%Z turned_view = (Ok tt, turned_view) ->
   matrix_current turned_view) /\
  (get_image turned_view = (Ok (Array empty_ndarray), turned_view) ->
   matrix_current turned_view) /\
  (nonzero_size (size turned_view) ->
   reset_corners turned_view = (Ok tt, turned_view) ->
   matrix_current turned_view).
Proof.
  apply (returned_matrix_is_current turned_view turned_view (V2 0 0)
           (Scalar 1) 0 None (4, 2)%Z (Array empty_ndarray)).
  unfold has_image; vm_compute; discriminate.
Defined.

(** ** Loading and constructing *)

(** X19 -- loading without fitting.  When the viewport has a zero
    dimension, or the new array is empty, [load_image] returns and only
    replaces the raster: corners, matrix, size and background colour stay
    as they were (so loading the empty array puts the object into the
    state in which [pan], [zoom] and [rotate] do nothing). *)
Theorem load_image_without_fit (self : t) (img : ndarray) :
  zero_in_pair (size self) = true \/ nd_size img = 0%Z ->
  load_image img self = (Ok tt, set_core_image img self).
Proof.
  intros Hc. unfold load_image. rewrite bind_assign. unfold reset_corners.
  cbn [size core_image set_core_image].
  destruct Hc as [Hz | He].
  - rewrite Hz. reflexivity.
  - apply Z.eqb_eq in He. rewrite He, orb_true_r. reflexivity.
Qed.

Lemma load_image_without_fit_witness :
  load_image empty_ndarray turned_view
  = (Ok tt, set_core_image empty_ndarray turned_view).
Proof.
  apply (load_image_without_fit turned_view empty_ndarray).
  right. reflexivity.
Defined.

(** X20 -- constructing with an image.  [ImageControl(image, size,
    background_color)] with a non-empty array of at least two dimensions
    and a size without a zero dimension returns a view: the image is
    loaded, size and colour are the given ones, the corners are not
    collinear and the matrix is current, so [get_image] on it renders. *)
Theorem init_with_image_is_view (img : ndarray) (s : Z * Z) (bg : color)
    (h w : Z) (rest : list Z) :
  nd_size img <> 0%Z -> shape img = h :: w :: rest -> nonzero_size s ->
  exists self,
    init (Some img) s bg = (Ok tt, self) /\
    view self /\
    core_image self = img /\ size self = s /\ background_color self = bg.
Proof.
  intros Hi Hshape Hs. unfold init, load_image. rewrite bind_assign.
  set (self0 := set_core_image img _).
  destruct (reset_corners_runs self0 h w rest Hi Hs Hshape)
    as (width & height & offset & M & Hwd & Hht & HM & Hr & _).
  eexists. split; [exact Hr|]. split; [|simpl; auto].
  split; simpl; [exact Hi | exact Hs | | exact HM].
  rewrite collinear_det, (proj2 (det_shift _ _)).
  unfold det2, delta_coords, get_coords_from_size; simpl.
  intros E. assert (E' : width * height = 0) by lra.
  apply Rmult_integral in E'. tauto.
Qed.

Lemma init_with_image_is_view_witness :
  exists self,
    init (Some small_image) (4, 2)%Z (0, 0, 0)%Z = (Ok tt, self) /\
    view self /\
    core_image self = small_image /\ size self = (4, 2)%Z /\
    background_color self = (0, 0, 0)%Z.
Proof.
  apply (init_with_image_is_view small_image (4, 2)%Z (0, 0, 0)%Z 2 2 [3%Z]).
  - vm_compute; discriminate.
  - reflexivity.
  - split; simpl; discriminate.
Defined.

(** ** Frame of the remaining methods *)

Lemma reset_corners_frame (self : t) :
  frame_kept self (snd (reset_corners self)).
Proof.
  unfold reset_corners.
  destruct (zero_in_pair (size self) || (nd_size (core_image self) =? 0)%Z
            || zero_in (firstn 2 (shape (core_image self))));
    [apply frame_kept_refl|].
  cbv zeta.
  unfold bind at 1, lift at 1.
  destruct (index (shape (core_image self)) 0) as [shape0 | e];
    [|apply frame_kept_refl].
  unfold bind at 1, lift at 1.
  destruct (index (shape (core_image self)) 1) as [shape1 | e];
    [|apply frame_kept_refl].
  unfold bind at 1, lift at 1.
  destruct (py_div shape0 shape1) as [image_ratio | e]; [|apply frame_kept_refl].
  unfold bind at 1, lift at 1.
  destruct (py_div (snd (size self)) (fst (size self))) as [size_ratio | e];
    [|apply frame_kept_refl].
  destruct (Req_dec_T image_ratio size_ratio) as [Heq | Hne].
  - rewrite bind_ret. apply corners_update_frame.
  - destruct (Rgt_dec image_ratio size_ratio) as [Hgt | Hng].
    + rewrite bind_bind. unfold bind at 1, lift at 1.
      destruct (py_div (fst (size self)) (snd (size self))) as [q | e];
        [|apply frame_kept_refl].
      rewrite bind_ret. apply corners_update_frame.
    + rewrite bind_bind, bind_lift_ok, bind_ret. apply corners_update_frame.
Qed.

Lemma resize_frame (self : t) (new_size : Z * Z) (r : result unit * t) :
  r = resize new_size self ->
  core_image (snd r) = core_image self /\
  background_color (snd r) = background_color self /\
  (fst r = Ok tt -> size (snd r) = new_size).
Proof.
  assert (Hlast : forall s0, frame_kept self s0 ->
            forall r0, r0 = (assign (set_size new_size) ;;
                             (fun self0 =>
                                if negb (nd_size (core_image self0) =? 0)%Z
                                then update_affine_transform_matrix self0
                                else ret tt self0)) s0 ->
            core_image (snd r0) = core_image self /\
            background_color (snd r0) = background_color self /\
            size (snd r0) = new_size).
  { intros s0 (F1 & F2 & F3) r0 ->. rewrite bind_assign. cbv beta.
    destruct (negb _).
    - destruct (update_frame (set_size new_size s0)) as ((G1 & G2 & G3) & _).
      rewrite G1, G2, G3. simpl. auto.
    - simpl. auto. }
  intros Hr. unfold resize in Hr. unfold bind at 1 in Hr. cbv beta in Hr.
  destruct (negb (nd_size (core_image self) =? 0)%Z
            && negb (is_0_0 (size self))) eqn:Eb.
  - apply andb_true_iff in Eb. destruct Eb as [Eb _].
    apply negb_true_iff in Eb.
    unfold bind at 1, lift at 1 in Hr.
    destruct (py_div (fst new_size) (fst (size self))) as [fx | e];
      [|subst r; simpl; repeat split; discriminate].
    unfold bind at 1, lift at 1 in Hr.
    destruct (py_div (snd new_size) (snd (size self))) as [fy | e];
      [|subst r; simpl; repeat split; discriminate].
    unfold zoom in Hr. rewrite Eb in Hr. cbv zeta in Hr.
    match type of Hr with context [(assign (set_corners ?c) ;; _) self] =>
      pose proof (corners_update_frame c self) as F;
      destruct ((assign (set_corners c) ;; update_affine_transform_matrix) self)
        as [[[] | e] s1] end.
    + destruct (Hlast s1 F r Hr) as (A & B & C). auto.
    + destruct F as (F1 & F2 & F3). subst r. simpl.
      repeat split; auto. discriminate.
  - unfold ret at 1 in Hr.
    destruct (Hlast self (frame_kept_refl self) r Hr) as (A & B & C). auto.
Qed.

(** X21 -- frame of reset, load and resize.  On every state and on every
    path, returning or raising: [reset_corners] leaves raster, size and
    background colour as they were; [load_image] stores the given raster
    and leaves size and colour; [resize] leaves raster and colour, and
    when it returns the size is the new size. *)
Theorem reset_load_resize_frame (self : t) (img : ndarray) (new_size : Z * Z) :
  frame_kept self (snd (reset_corners self)) /\
  (core_image (snd (load_image img self)) = img /\
   size (snd (load_image img self)) = size self /\
   background_color (snd (load_image img self)) = background_color self) /\
  (core_image (snd (resize new_size self)) = core_image self /\
   background_color (snd (resize new_size self)) = background_color self /\
   (fst (resize new_size self) = Ok tt ->
    size (snd (resize new_size self)) = new_size)).
Proof.
  split; [apply reset_corners_frame|]. split.
  - unfold load_image. rewrite bind_assign.
    destruct (reset_corners_frame (set_core_image img self)) as (F1 & F2 & F3).
    auto.
  - apply resize_frame. reflexivity.
Qed.

(* ================================================================== *)
(** * affine_multiplication with its shape dispatch *)

Section Batches.

Variable M : mat3.
Variable pts : list vec2.

Let k : nat := length pts.
Let xs : list R := map vx pts.
Let ys : list R := map vy pts.
Let v : list R := (xs ++ ys) ++ repeat 1 k.

Lemma map_seq_pts (g : vec2 -> R) :
  map (fun j => g (nth j pts (V2 0 0))) (seq 0 (length pts)) = map g pts.
Proof.
  clear k xs ys v. induction pts as [| p l IH]; [reflexivity|].
  cbn [length seq map nth]. f_equal.
  rewrite <- seq_shift, map_map. exact IH.
Qed.

Lemma batch_entries (j : nat) :
  (j < k)%nat ->
  at2 k v 0 j = vx (nth j pts (V2 0 0)) /\
  at2 k v 1 j = vy (nth j pts (V2 0 0)) /\
  at2 k v 2 j = 1.
Proof.
  intros Hj. unfold at2, v.
  assert (Lx : length xs = k) by (unfold xs; apply length_map).
  assert (Ly : length ys = k) by (unfold ys; apply length_map).
  split; [|split].
  - rewrite app_nth1 by (rewrite length_app; lia).
    rewrite app_nth1 by lia.
    unfold xs. change 0 with (vx (V2 0 0)). rewrite map_nth. f_equal.
  - rewrite app_nth1 by (rewrite length_app; lia).
    rewrite app_nth2 by lia. rewrite Lx.
    replace (1 * k + j - k)%nat with j by lia.
    unfold ys. change 0 with (vy (V2 0 0)). rewrite map_nth. reflexivity.
  - rewrite app_nth2 by (rewrite length_app; lia).
    rewrite length_app, Lx, Ly.
    apply nth_repeat_lt. lia.
Qed.

(** The two upper rows of the product of the matrix with the three rows
    x, y, 1 of a batch: the x coordinates of the images, then the y
    coordinates. *)
Lemma batch_product :
  firstn ((3 - 1) * k) (dot_entries 3 3 k
     [m00 M; m01 M; m02 M; m10 M; m11 M; m12 M; m20 M; m21 M; m22 M] v)
  = map vx (map (affine_multiplication M) pts)
    ++ map vy (map (affine_multiplication M) pts).
Proof.
  unfold dot_entries. cbn [seq flat_map]. rewrite app_nil_r.
  assert (Hrow : forall a b c (g : vec2 -> R),
            (forall p, g p = a * vx p + b * vy p + c * 1) ->
            map (fun j => fold_right Rplus 0
                            (map (fun l => at2 3 [a; b; c] 0 l * at2 k v l j)
                                 [0%nat; 1%nat; 2%nat]))
                (seq 0 k)
            = map g pts).
  { intros a b c g Hg. rewrite <- (map_seq_pts g). apply map_ext_in.
    intros j Hj. apply in_seq in Hj.
    destruct (batch_entries j) as (E0 & E1 & E2); [lia|].
    cbn [map fold_right]. rewrite E0, E1, E2, Hg. unfold at2; simpl. ring. }
  assert (Hr0 : forall j,
            fold_right Rplus 0
              (map (fun l => at2 3 [m00 M; m01 M; m02 M; m10 M; m11 M; m12 M;
                                     m20 M; m21 M; m22 M] 0 l * at2 k v l j)
                   [0%nat; 1%nat; 2%nat])
            = fold_right Rplus 0
                (map (fun l => at2 3 [m00 M; m01 M; m02 M] 0 l * at2 k v l j)
                     [0%nat; 1%nat; 2%nat])) by reflexivity.
  assert (Hr1 : forall j,
            fold_right Rplus 0
              (map (fun l => at2 3 [m00 M; m01 M; m02 M; m10 M; m11 M; m12 M;
                                     m20 M; m21 M; m22 M] 1 l * at2 k v l j)
                   [0%nat; 1%nat; 2%nat])
            = fold_right Rplus 0
                (map (fun l => at2 3 [m10 M; m11 M; m12 M] 0 l * at2 k v l j)
                     [0%nat; 1%nat; 2%nat])) by reflexivity.
  rewrite (map_ext _ _ Hr0), (map_ext _ _ Hr1).
  rewrite (Hrow _ _ _ (fun p => vx (affine_multiplication M p)))
    by (intros p; reflexivity).
  rewrite (Hrow _ _ _ (fun p => vy (affine_multiplication M p)))
    by (intros p; reflexivity).
  rewrite !map_map.
  rewrite app_assoc, firstn_app.
  rewrite firstn_all2 by (rewrite length_app, !length_map; fold k; lia).
  rewrite length_app, !length_map. fold k.
  replace ((3 - 1) * k - (k + k))%nat with 0%nat by lia.
  cbn [firstn]. rewrite app_nil_r. reflexivity.
Qed.

(** The transpose of a batch given one point per row. *)
Lemma transpose_rows :
  transpose_entries k 2 (flat_map (fun p => [vx p; vy p]) pts) = xs ++ ys.
Proof.
  unfold transpose_entries. cbn [seq flat_map]. rewrite app_nil_r.
  assert (Hnth : forall j c, (c < 2)%nat ->
            at2 2 (flat_map (fun p => [vx p; vy p]) pts) j c
            = nth c [vx (nth j pts (V2 0 0)); vy (nth j pts (V2 0 0))] 0).
  { clear k xs ys v. unfold at2. induction pts as [| p l IH]; intros j c Hc.
    - destruct j, c as [| [| c]]; try lia; reflexivity.
    - destruct j as [| j].
      + destruct c as [| [| c]]; try lia; reflexivity.
      + cbn [flat_map nth]. replace (S j * 2 + c)%nat with (S (S (j * 2 + c))) by lia.
        cbn [app nth]. apply IH. exact Hc. }
  f_equal.
  - unfold xs. rewrite <- (map_seq_pts vx). apply map_ext.
    intros j. rewrite Hnth by lia. reflexivity.
  - unfold ys. rewrite <- (map_seq_pts vy). apply map_ext.
    intros j. rewrite Hnth by lia. reflexivity.
Qed.

End Batches.

(** X22 -- batches of column points.  For a (3, 3) matrix and an array of
    shape (2, k), k <> 2, holding k points one per column (the engine's
    (2, 1) and (2, 3) arrays are of this kind), [affine_multiplication]
    returns the array of shape (2, k) holding the images of the k points
    one per column: the typed functions above are what the dispatch
    computes at these shapes. *)
Theorem affine_multiplication_columns (M : mat3) (pts : list vec2) :
  length pts <> 2%nat ->
  affine_multiplication_nd (of_mat3 M)
    (Arr2 2 (length pts) (map vx pts ++ map vy pts))
  = Returns (Arr2 2 (length pts)
               (map vx (map (affine_multiplication M) pts)
                ++ map vy (map (affine_multiplication M) pts))).
Proof.
  intros Hk.
  assert (Hb : (S (length pts) =? 3)%nat = false) by (apply Nat.eqb_neq; lia).
  unfold affine_multiplication_nd, of_mat3.
  change (negb (3 =? 3)%nat) with false. cbv iota. rewrite Hb.
  change (3 =? 3)%nat with true. cbv iota.
  unfold reshape_like. do 2 f_equal. apply batch_product.
Qed.

Lemma affine_multiplication_columns_witness :
  affine_multiplication_nd (of_mat3 (affine_transform_matrix turned_view))
    (Arr2 2 (length [V2 0 0; V2 4 0; V2 0 2])
       (map vx [V2 0 0; V2 4 0; V2 0 2] ++ map vy [V2 0 0; V2 4 0; V2 0 2]))
  = Returns (Arr2 2 (length [V2 0 0; V2 4 0; V2 0 2])
               (map vx (map (affine_multiplication (affine_transform_matrix turned_view))
                          [V2 0 0; V2 4 0; V2 0 2])
                ++ map vy (map (affine_multiplication (affine_transform_matrix turned_view))
                             [V2 0 0; V2 4 0; V2 0 2]))).
Proof.
  apply (affine_multiplication_columns (affine_transform_matrix turned_view)
           [V2 0 0; V2 4 0; V2 0 2]).
  simpl. discriminate.
Defined.

(** X23 -- batches of row points.  For a (3, 3) matrix and an array of
    shape (k, 2) holding k points one per row, [affine_multiplication]
    reads the points from the rows, and returns an array of shape (k, 2)
    whose entries, in C order, are the x coordinates of the k images
    followed by their y coordinates.  For one row (shape (1, 2)) that is
    the image of the point; for two rows [[x1, y1], [x2, y2]] the result
    is [[X1, X2], [Y1, Y2]], one image per column, and in general the
    result is not one image per row. *)
Theorem affine_multiplication_rows (M : mat3) (pts : list vec2) :
  affine_multiplication_nd (of_mat3 M)
    (Arr2 (length pts) 2 (flat_map (fun p => [vx p; vy p]) pts))
  = Returns (Arr2 (length pts) 2
               (map vx (map (affine_multiplication M) pts)
                ++ map vy (map (affine_multiplication M) pts))).
Proof.
  unfold affine_multiplication_nd, of_mat3.
  change (negb (3 =? 3)%nat) with false. cbv iota.
  change (3 =? 3)%nat with true. cbv iota.
  rewrite transpose_rows. unfold reshape_like. do 2 f_equal.
  apply batch_product.
Qed.

(** X24 -- one-dimensional vectors.  For a (3, 3) matrix and a vector of
    shape (2,), [affine_multiplication] returns the image as an array of
    shape (2,); for a square matrix of any size and a one-dimensional
    vector of the wrong length it raises IndexError (from
    [vector.shape[1]] in the second test), not the TypeError it raises
    for the other shape mismatches. *)
Theorem affine_multiplication_one_dimensional (M : mat3) (x y : R) :
  affine_multiplication_nd (of_mat3 M) (Arr1 [x; y])
  = Returns (Arr1 [vx (affine_multiplication M (V2 x y));
                   vy (affine_multiplication M (V2 x y))]) /\
  (forall (n : nat) (m xs : list R),
     S (length xs) <> n ->
     affine_multiplication_nd (Arr2 n n m) (Arr1 xs)
     = Raises (Engine IndexError)).
Proof.
  split.
  - unfold affine_multiplication_nd, of_mat3.
    change (negb (3 =? 3)%nat) with false. cbv iota.
    change (S (length [x; y]) =? 3)%nat with true. cbv iota.
    unfold reshape_like.
    pose proof (batch_product M [V2 x y]) as E.
    cbn [length map app repeat vx vy] in E.
    cbn [app]. rewrite E. reflexivity.
  - intros n m xs Hn. unfold affine_multiplication_nd.
    rewrite Nat.eqb_refl. cbn [negb].
    apply Nat.eqb_neq in Hn. rewrite Hn. reflexivity.
Qed.

(** [affine_multiplication] raises TypeError when the matrix is not
    two-dimensional or not square, and when the vector is two-dimensional
    and neither of its dimensions is one less than the matrix size. *)
Lemma affine_multiplication_type_errors :
  (forall (m : list R) (vector : farray),
     affine_multiplication_nd (Arr1 m) vector = Raises TypeError) /\
  (forall (r c : nat) (m : list R) (vector : farray),
     r <> c -> affine_multiplication_nd (Arr2 r c m) vector = Raises TypeError) /\
  (forall (n vr vc : nat) (m xs : list R),
     S vc <> n -> S vr <> n ->
     affine_multiplication_nd (Arr2 n n m) (Arr2 vr vc xs) = Raises TypeError).
Proof.
  split; [reflexivity|]. split.
  - intros r c m vector Hrc. unfold affine_multiplication_nd.
    apply Nat.eqb_neq in Hrc. rewrite Hrc. reflexivity.
  - intros n vr vc m xs H1 H2. unfold affine_multiplication_nd.
    rewrite Nat.eqb_refl. cbn [negb].
    apply Nat.eqb_neq in H1, H2. rewrite H1, H2. reflexivity.
Qed.

(* ================================================================== *)
(** * The view is never distorted *)



Lemma similarity_inner (M M' : mat3) :
  inner_of M' = inner_of M -> similarity M -> similarity M'.
Proof.
  destruct M, M'. unfold inner_of, similarity; simpl.
  intros [= -> -> -> ->]. auto.
Qed.


(** The fit of [reset_corners] has one scale for both axes. *)
Lemma reset_corners_similarity (self self' : t) (h w : Z) (rest : list Z) :
  has_image self -> nonzero_size (size self) ->
  shape (core_image self) = h :: w :: rest ->
  reset_corners self = (Ok tt, self') ->
  has_image self' /\ size self' = size self /\ matrix_current self' /\
  similarity (affine_transform_matrix self').
Proof.
  intros Hi Hs Hshape Hr.
  destruct (shape_dims_nonzero _ h w rest Hi Hshape) as [Hh Hw].
  assert (Rh : IZR h <> 0) by (intros E; apply eq_IZR_R0 in E; contradiction).
  assert (Rw : IZR w <> 0) by (intros E; apply eq_IZR_R0 in E; contradiction).
  destruct (nonzero_size_R _ Hs) as [RW RH].
  destruct (reset_corners_runs self h w rest Hi Hs Hshape)
    as (wd & ht & o & M & _ & _ & HM & Hr' & Eq & Gt & Lt).
  rewrite Hr' in Hr. injection Hr as <-. simpl.
  split; [exact Hi|]. split; [reflexivity|]. split; [exact HM|].
  rewrite (derived_entries _ _ Hs) in HM. injection HM as <-.
  unfold similarity; simpl.
  destruct (Rtotal_order (IZR h / IZR w)
              (IZR (snd (size self)) / IZR (fst (size self))))
    as [Hlt | [Heq | Hgt]].
  - destruct (Lt Hlt) as (-> & -> & ->). simpl. split; field; auto.
  - pose proof (Eq Heq) as E. injection E as -> -> ->. simpl.
    assert (E : IZR h * IZR (fst (size self)) = IZR (snd (size self)) * IZR w).
    { apply (f_equal (fun x => x * IZR w * IZR (fst (size self)))) in Heq.
      field_simplify in Heq; auto. lra. }
    split; [|field; auto].
    apply (Rmult_eq_reg_r (IZR (fst (size self)) * IZR (snd (size self)))).
    + field_simplify; auto. lra.
    + apply Rmult_integral_contrapositive_currified; assumption.
  - destruct (Gt Hgt) as (-> & -> & ->). simpl. split; field; auto.
Qed.




(** X25 -- the fit is undistorted.  With an image of at least two
    dimensions loaded and no zero viewport dimension, [reset_corners]
    returns and leaves a matrix whose linear part has the same scale on
    both axes and no shear (m00 = m11, m01 = -m10 = 0): the three
    branches of the fit agree on that. *)
Theorem reset_is_undistorted (self : t) (h w : Z) (rest : list Z) :
  has_image self -> nonzero_size (size self) ->
  shape (core_image self) = h :: w :: rest ->
  exists self',
    reset_corners self = (Ok tt, self') /\
    similarity (affine_transform_matrix self') /\
    m01 (affine_transform_matrix self') = 0.
Proof.
  intros Hi Hs Hshape.
  destruct (reset_corners_runs self h w rest Hi Hs Hshape)
    as (wd & ht & o & M & _ & _ & HM & Hr & _).
  destruct (reset_corners_similarity self _ h w rest Hi Hs Hshape Hr)
    as (_ & _ & _ & D).
  eexists. split; [exact Hr|]. split; [exact D|]. simpl.
  rewrite (derived_entries _ _ Hs) in HM. injection HM as <-.
  destruct (nonzero_size_R _ Hs) as [RW RH]. simpl. field. exact RH.
Qed.

Lemma reset_is_undistorted_witness :
  exists self',
    reset_corners square_in_800_600 = (Ok tt, self') /\
    similarity (affine_transform_matrix self') /\
    m01 (affine_transform_matrix self') = 0.
Proof.
  apply (reset_is_undistorted square_in_800_600 400 400 [3%Z]).
  - unfold has_image, nd_size; cbn [square_in_800_600 core_image square_image
                                    shape fold_right]. lia.
  - split; simpl; discriminate.
  - reflexivity.
Defined.



(* ================================================================== *)
(** * The canvas callbacks *)

Local Open Scope canvas_scope.

Lemma canvas_eta (cv : canvas) : set_image_control (image_control cv) cv = cv.
Proof. destruct cv; reflexivity. Qed.

(** On a state with an image, no zero viewport dimension and a current
    matrix, [get_image] returns and leaves the object as it was. *)
Lemma get_image_idle (self : t) :
  has_image self -> nonzero_size (size self) -> matrix_current self ->
  exists img, get_image self = (Ok img, self).
Proof.
  intros Hi Hs Hm.
  destruct (get_image_sized self Hi Hs) as (M & HM & Hc & Hnc).
  pose proof (set_current_matrix self M Hm HM) as Es.
  destruct (Req_dec_T (det2 (delta_coords (corners self))) 0) as [E | E].
  - apply collinear_det in E. rewrite (Hc E), Es. eexists. reflexivity.
  - assert (E' : ~ collinear (corners self)) by (rewrite collinear_det; exact E).
    destruct (Hnc E') as (Mi & _ & ->). rewrite Es. eexists. reflexivity.
Qed.

Lemma update_idle (cv : canvas) :
  has_image (image_control cv) -> nonzero_size (size (image_control cv)) ->
  matrix_current (image_control cv) ->
  update cv = (Ok tt, cv).
Proof.
  intros Hi Hs Hm. destruct (get_image_idle _ Hi Hs Hm) as (img & E).
  unfold update, cbind, on_control, cret. rewrite E, canvas_eta. reflexivity.
Qed.

(** An engine call that returns, followed by [update], on a canvas. *)
Lemma control_then_update (cv : canvas) (m : method unit) (ic : t) :
  m (image_control cv) = (Ok tt, ic) ->
  has_image ic -> nonzero_size (size ic) -> matrix_current ic ->
  (on_control m ;;; update) cv = (Ok tt, set_image_control ic cv).
Proof.
  intros E Hi Hs Hm. unfold cbind at 1. unfold on_control at 1. rewrite E.
  apply update_idle; destruct cv; assumption.
Qed.

Lemma set_image_control_twice (ic ic' : t) (cv : canvas) :
  set_image_control ic (set_image_control ic' cv) = set_image_control ic cv.
Proof. reflexivity. Qed.

Section WheelAndDrag.

Variable cv : canvas.
Hypothesis image_ok : has_image (image_control cv).
Hypothesis size_ok : nonzero_size (size (image_control cv)).
Hypothesis matrix_ok : matrix_current (image_control cv).

(** Two zooms about one center whose factors multiply to one. *)
Lemma zoom_there_and_back (f f' : R) (c : option vec2) :
  f * f' = 1 ->
  exists ic1,
    zoom (Scalar f) c (image_control cv) = (Ok tt, ic1) /\
    has_image ic1 /\ nonzero_size (size ic1) /\ matrix_current ic1 /\
    zoom (Scalar f') c ic1 = (Ok tt, image_control cv).
Proof.
  intros Hff.
  destruct (zoom_runs _ image_ok size_ok (Scalar f) c) as (M1 & HM1 & Hz1).
  eexists. split; [exact Hz1|]. simpl.
  split; [exact image_ok|]. split; [exact size_ok|]. split; [exact HM1|].
  pose proof (zoom_zoom _ image_ok size_ok (Scalar f) (Scalar f') c) as Z.
  unfold bind in Z. rewrite Hz1 in Z. simpl in Z. rewrite Z, Hff.
  destruct (neutral_calls _ image_ok size_ok matrix_ok c) as (_ & N & _).
  exact N.
Qed.

Lemma notches_there_and_back (n : Z) (e1 e2 : event) :
  scroll_factor cv <> 0 ->
  zoom_center_of cv e1 = zoom_center_of cv e2 ->
  (zoom_by_notches n e1 ;;; zoom_by_notches (- n) e2) cv = (Ok tt, cv).
Proof.
  intros Hsf Hc.
  assert (Hff : powerRZ (scroll_factor cv) n * powerRZ (scroll_factor cv) (- n) = 1).
  { rewrite <- powerRZ_add by exact Hsf. rewrite Z.add_opp_diag_r. reflexivity. }
  destruct (zoom_there_and_back _ _ (Some (zoom_center_of cv e1)) Hff)
    as (ic1 & Z1 & Hi1 & Hs1 & Hm1 & Z2).
  unfold cbind at 1. unfold zoom_by_notches at 1.
  rewrite (control_then_update cv _ ic1 Z1 Hi1 Hs1 Hm1).
  unfold zoom_by_notches.
  change (scroll_factor (set_image_control ic1 cv)) with (scroll_factor cv).
  change (zoom_center_of (set_image_control ic1 cv) e2) with (zoom_center_of cv e2).
  rewrite <- Hc.
  rewrite (control_then_update (set_image_control ic1 cv) _ (image_control cv));
    try assumption.
  rewrite set_image_control_twice, canvas_eta. reflexivity.
Qed.

Lemma pan_there_and_back (d d' : vec2) :
  vadd d d' = V2 0 0 ->
  exists ic1,
    pan d (image_control cv) = (Ok tt, ic1) /\
    has_image ic1 /\ nonzero_size (size ic1) /\ matrix_current ic1 /\
    pan d' ic1 = (Ok tt, image_control cv).
Proof.
  intros Hdd.
  destruct (pan_runs _ image_ok size_ok d) as (M1 & HM1 & Hp1).
  eexists. split; [exact Hp1|]. simpl.
  split; [exact image_ok|]. split; [exact size_ok|]. split; [exact HM1|].
  pose proof (pan_pan _ image_ok size_ok d d') as P.
  unfold bind in P. rewrite Hp1 in P. simpl in P. rewrite P, Hdd.
  destruct (neutral_calls _ image_ok size_ok matrix_ok None) as (N & _ & _).
  exact N.
Qed.

End WheelAndDrag.

Lemma py_int_IZR (n : Z) : py_int (IZR n) = n.
Proof.
  assert (HI : forall m, Int_part (IZR m) = m).
  { intros m. symmetry. apply Int_part_spec. split; lra. }
  unfold py_int. destruct (Rle_dec 0 (IZR n)) as [_ | _].
  - apply HI.
  - rewrite <- opp_IZR, HI. lia.
Qed.

(** X27 -- the wheel, there and back.  On a canvas whose engine holds an
    image, no zero viewport dimension and a current matrix, with a
    nonzero scroll factor and the pointer at the same place for both
    events: a wheel event and the opposite one (Windows: delta 120 k and
    -120 k; Linux: button 4 and button 5 with delta 0; elsewhere: delta
    k and -k) return and leave the engine, the view included, as it
    was.  The picture [update] draws from it is not part of the
    statement. *)
Theorem wheel_there_and_back (cv : canvas) (x y n k w h : Z) :
  has_image (image_control cv) -> nonzero_size (size (image_control cv)) ->
  matrix_current (image_control cv) -> scroll_factor cv <> 0 ->
  (exists cv',
     (callback_mousewheel_windows (Event x y n (120 * k) w h) ;;;
      callback_mousewheel_windows (Event x y n (- (120 * k)) w h)) cv
     = (Ok tt, cv') /\
     image_control cv' = image_control cv) /\
  (exists cv',
     (callback_mousewheel_linux (Event x y 4 0 w h) ;;;
      callback_mousewheel_linux (Event x y 5 0 w h)) cv
     = (Ok tt, cv') /\
     image_control cv' = image_control cv) /\
  (exists cv',
     (callback_mousewheel_other (Event x y n k w h) ;;;
      callback_mousewheel_other (Event x y n (- k) w h)) cv
     = (Ok tt, cv') /\
     image_control cv' = image_control cv).
Proof.
  intros Hi Hs Hm Hsf.
  assert (Hc : forall n1 d1 n2 d2,
             zoom_center_of cv (Event x y n1 d1 w h)
             = zoom_center_of cv (Event x y n2 d2 w h)) by reflexivity.
  split; [|split]; exists cv; (split; [|reflexivity]).
  - unfold callback_mousewheel_windows. cbn [ev_delta].
    replace (-1 * (IZR (120 * k) / 120)) with (IZR (- k))
      by (rewrite opp_IZR, mult_IZR; field).
    replace (-1 * (IZR (- (120 * k)) / 120)) with (IZR (- - k))
      by (rewrite !opp_IZR, mult_IZR; field).
    rewrite !py_int_IZR.
    apply notches_there_and_back; auto.
  - unfold callback_mousewheel_linux. cbn [ev_num ev_delta Z.eqb negb Pos.eqb].
    apply (notches_there_and_back cv Hi Hs Hm (-1)); auto.
  - unfold callback_mousewheel_other. cbn [ev_delta].
    replace (-1 * - k)%Z with (- (-1 * k))%Z by lia.
    apply notches_there_and_back; auto.
Qed.

(** [doubling_canvas], pointer at (3, 1): three notches on Windows, one
    on Linux, two elsewhere. *)
Lemma wheel_there_and_back_witness :
  (exists cv',
     (callback_mousewheel_windows (Event 3 1 0 360 4 2) ;;;
      callback_mousewheel_windows (Event 3 1 0 (-360) 4 2)) doubling_canvas
     = (Ok tt, cv') /\
     image_control cv' = turned_view) /\
  (exists cv',
     (callback_mousewheel_linux (Event 3 1 4 0 4 2) ;;;
      callback_mousewheel_linux (Event 3 1 5 0 4 2)) doubling_canvas
     = (Ok tt, cv') /\
     image_control cv' = turned_view) /\
  (exists cv',
     (callback_mousewheel_other (Event 3 1 0 2 4 2) ;;;
      callback_mousewheel_other (Event 3 1 0 (-2) 4 2)) doubling_canvas
     = (Ok tt, cv') /\
     image_control cv' = turned_view).
Proof.
  split; [|split].
  - apply (wheel_there_and_back doubling_canvas 3 1 0 3 4 2).
    + unfold has_image; vm_compute; discriminate.
    + split; simpl; discriminate.
    + apply turned_view_is_view.
    + simpl; lra.
  - apply (wheel_there_and_back doubling_canvas 3 1 0 3 4 2).
    + unfold has_image; vm_compute; discriminate.
    + split; simpl; discriminate.
    + apply turned_view_is_view.
    + simpl; lra.
  - apply (wheel_there_and_back doubling_canvas 3 1 0 2 4 2).
    + unfold has_image; vm_compute; discriminate.
    + split; simpl; discriminate.
    + apply turned_view_is_view.
    + simpl; lra.
Defined.

(** X28 -- a left-button drag, there and back.  On such a canvas,
    pressing the left button at a point, dragging to another point and
    dragging back to the first returns, and leaves the engine exactly as
    it was, with the first point stored as the button position. *)
Theorem left_drag_there_and_back (cv : canvas) (e0 e1 e2 : event) :
  has_image (image_control cv) -> nonzero_size (size (image_control cv)) ->
  matrix_current (image_control cv) ->
  ev_x e2 = ev_x e0 -> ev_y e2 = ev_y e0 ->
  (callback_left_button_press e0 ;;;
   callback_left_button_motion e1 ;;;
   callback_left_button_motion e2) cv
  = (Ok tt, set_left_button_pos (event_pos e0) cv).
Proof.
  intros Hi Hs Hm Hx Hy.
  assert (Hp : event_pos e2 = event_pos e0)
    by (unfold event_pos; rewrite Hx, Hy; reflexivity).
  set (cv0 := set_left_button_pos (event_pos e0) cv).
  assert (Hdd : vadd (vsub (event_pos e0) (event_pos e1))
                     (vsub (event_pos e1) (event_pos e2)) = V2 0 0).
  { rewrite Hp. destruct (event_pos e0), (event_pos e1).
    unfold vadd, vsub; simpl. f_equal; ring. }
  destruct (pan_there_and_back cv0 Hi Hs Hm _ _ Hdd)
    as (ic1 & P1 & Hi1 & Hs1 & Hm1 & P2).
  unfold cbind at 1. unfold callback_left_button_press, cassign. fold cv0.
  unfold cbind at 1. unfold callback_left_button_motion at 1.
  change (left_button_pos cv0) with (event_pos e0).
  unfold cbind at 1. unfold on_control at 1. rewrite P1.
  unfold cbind at 1. unfold cassign at 1.
  rewrite update_idle by assumption.
  unfold callback_left_button_motion.
  change (left_button_pos (set_left_button_pos (event_pos e1)
                             (set_image_control ic1 cv0)))
    with (event_pos e1).
  unfold cbind at 1. unfold on_control at 1.
  change (image_control (set_left_button_pos (event_pos e1)
                           (set_image_control ic1 cv0))) with ic1.
  rewrite P2.
  unfold cbind at 1. unfold cassign at 1.
  rewrite update_idle by (destruct cv; assumption).
  rewrite Hp. destruct cv; reflexivity.
Qed.

Lemma left_drag_there_and_back_witness :
  (callback_left_button_press (Event 3 1 0 0 4 2) ;;;
   callback_left_button_motion (Event 1 2 0 0 4 2) ;;;
   callback_left_button_motion (Event 3 1 0 0 4 2)) turned_canvas
  = (Ok tt, set_left_button_pos (event_pos (Event 3 1 0 0 4 2)) turned_canvas).
Proof.
  apply (left_drag_there_and_back turned_canvas (Event 3 1 0 0 4 2)
           (Event 1 2 0 0 4 2) (Event 3 1 0 0 4 2)).
  - unfold has_image; vm_compute; discriminate.
  - split; simpl; discriminate.
  - apply turned_view_is_view.
  - reflexivity.
  - reflexivity.
Defined.
